(** * pip-services3-redis-nodex: the Redis cache component

    A shallow embedding of the class [RedisCache] (module cache, imported
    by the factory as ../cache/RedisCache) together with the collaborators
    it talks to: the ECMAScript [JSON] object, the configuration container,
    the connection and credential resolvers, and the Redis client with the
    server behind it.  The lock component, whose source is not at hand, is
    modelled from the specification.

    Layout: the data model and the operations first, then the lemmas about
    the JSON codec and the store, then the properties of the component. *)

From Stdlib Require Import ZArith String Ascii List Bool Lia.
From Stdlib Require Import DecimalString DecimalPos DecimalN DecimalZ DecimalFacts.
From stdpp Require Import base option gmap strings list.

Local Open Scope Z_scope.

#[local] Set Warnings "-register-all".
#[local] Arguments String.append : simpl nomatch.

(* ===================================================================== *)
(** * 1. JavaScript values and the JSON codec *)
(* ===================================================================== *)

(** The values the cache is handed ([value: any]) and hands back.  Numbers
    are the integers (fractions, NaN, the infinities and negative zero are
    left out); strings are sequences of 8-bit code units.  An object is its
    list of own properties in enumeration order. *)
Inductive JsValue : Type :=
| JsUndefined
| JsNull
| JsBool (b : bool)
| JsNumber (n : Z)
| JsString (s : string)
| JsArray (items : list JsValue)
| JsObject (props : list (string * JsValue)).

(** Induction over a value and, with it, over the values nested in it. *)
Section JsValueInduction.
Variable P : JsValue -> Prop.
Hypothesis Hundefined : P JsUndefined.
Hypothesis Hnull : P JsNull.
Hypothesis Hbool : forall b, P (JsBool b).
Hypothesis Hnumber : forall n, P (JsNumber n).
Hypothesis Hstring : forall s, P (JsString s).
Hypothesis Harray : forall items, Forall P items -> P (JsArray items).
Hypothesis Hobject : forall props, Forall (fun p => P (snd p)) props -> P (JsObject props).

Fixpoint JsValue_induction (v : JsValue) : P v :=
  match v with
  | JsUndefined => Hundefined
  | JsNull => Hnull
  | JsBool b => Hbool b
  | JsNumber n => Hnumber n
  | JsString s => Hstring s
  | JsArray items =>
      Harray items
        ((fix each (l : list JsValue) : Forall P l :=
            match l with
            | [] => @List.Forall_nil _ P
            | x :: l' => @List.Forall_cons _ P x l' (JsValue_induction x) (each l')
            end) items)
  | JsObject props =>
      Hobject props
        ((fix each (l : list (string * JsValue)) : Forall (fun p => P (snd p)) l :=
            match l with
            | [] => @List.Forall_nil _ (fun p => P (snd p))
            | p :: l' =>
                @List.Forall_cons _ (fun p => P (snd p)) p l' (JsValue_induction (snd p)) (each l')
            end) props)
  end.
End JsValueInduction.

Module JSON.

Definition dquote : ascii := "034"%char.
Definition backslash : ascii := "092"%char.

Definition str1 (c : ascii) : string := String c EmptyString.

(** ** JSON.stringify *)

Definition hex_digit (n : N) : ascii :=
  if (n <? 10)%N then ascii_of_N (48 + n) else ascii_of_N (87 + n).

(** QuoteJSONString, one code unit at a time. *)
Definition escape_char (c : ascii) : string :=
  let n := N_of_ascii c in
  if (n =? 34)%N then String backslash (str1 dquote)
  else if (n =? 92)%N then String backslash (str1 backslash)
  else if (n =? 8)%N then String backslash "b"
  else if (n =? 12)%N then String backslash "f"
  else if (n =? 10)%N then String backslash "n"
  else if (n =? 13)%N then String backslash "r"
  else if (n =? 9)%N then String backslash "t"
  else if (n <? 32)%N then
    String backslash ("u00" +:+ String (hex_digit (n / 16)) (str1 (hex_digit (n mod 16))))
  else str1 c.

Fixpoint escape (s : string) : string :=
  match s with
  | EmptyString => EmptyString
  | String c s' => escape_char c +:+ escape s'
  end.

Definition quote (s : string) : string :=
  String dquote (escape s +:+ str1 dquote).

(** Number::toString on an integer: decimal digits, a leading minus sign. *)
Definition number_to_string (n : Z) : string :=
  NilEmpty.string_of_int (Z.to_int n).

Fixpoint join_comma (parts : list string) : string :=
  match parts with
  | [] => EmptyString
  | [p] => p
  | p :: ps => p +:+ "," +:+ join_comma ps
  end.

(** SerializeJSONProperty with no replacer and no indentation.  [None] is
    the [undefined] that JSON.stringify returns for [undefined]; inside an
    array [undefined] is written as null, inside an object the property is
    left out. *)
Fixpoint serialize (v : JsValue) : option string :=
  match v with
  | JsUndefined => None
  | JsNull => Some "null"
  | JsBool true => Some "true"
  | JsBool false => Some "false"
  | JsNumber n => Some (number_to_string n)
  | JsString s => Some (quote s)
  | JsArray items =>
      Some ("[" +:+ join_comma (map (fun x => default "null" (serialize x)) items) +:+ "]")
  | JsObject props =>
      Some ("{" +:+ join_comma
        ((fix members (ps : list (string * JsValue)) : list string :=
            match ps with
            | [] => []
            | (k, x) :: ps' =>
                match serialize x with
                | Some s => (quote k +:+ ":" +:+ s) :: members ps'
                | None => members ps'
                end
            end) props) +:+ "}")
  end.

Definition serialize_items (items : list JsValue) : list string :=
  map (fun x => default "null" (serialize x)) items.

Fixpoint serialize_members (ps : list (string * JsValue)) : list string :=
  match ps with
  | [] => []
  | (k, x) :: ps' =>
      match serialize x with
      | Some s => (quote k +:+ ":" +:+ s) :: serialize_members ps'
      | None => serialize_members ps'
      end
  end.

Definition stringify (v : JsValue) : option string := serialize v.

(** ** JSON.parse *)

Definition is_ws (c : ascii) : bool :=
  let n := N_of_ascii c in
  ((n =? 32) || (n =? 9) || (n =? 10) || (n =? 13))%N.

Fixpoint skip_ws (s : string) : string :=
  match s with
  | EmptyString => EmptyString
  | String c s' => if is_ws c then skip_ws s' else s
  end.

Definition is_digit (c : ascii) : bool :=
  let n := N_of_ascii c in ((48 <=? n) && (n <=? 57))%N.

Fixpoint span_digits (s : string) : string * string :=
  match s with
  | EmptyString => (EmptyString, EmptyString)
  | String c s' =>
      if is_digit c then
        let '(ds, rest) := span_digits s' in (String c ds, rest)
      else (EmptyString, s)
  end.

Definition hex_value (c : ascii) : option N :=
  let n := N_of_ascii c in
  if ((48 <=? n) && (n <=? 57))%N then Some (n - 48)%N
  else if ((97 <=? n) && (n <=? 102))%N then Some (n - 87)%N
  else if ((65 <=? n) && (n <=? 70))%N then Some (n - 55)%N
  else None.

Definition hex4 (a b c d : ascii) : option N :=
  match hex_value a, hex_value b, hex_value c, hex_value d with
  | Some x, Some y, Some z, Some w => Some (((x * 16 + y) * 16 + z) * 16 + w)%N
  | _, _, _, _ => None
  end.

Definition unescape (e : ascii) : option ascii :=
  let n := N_of_ascii e in
  if (n =? 34)%N then Some dquote
  else if (n =? 92)%N then Some backslash
  else if (n =? 47)%N then Some "/"%char
  else if (n =? 98)%N then Some "008"%char
  else if (n =? 102)%N then Some "012"%char
  else if (n =? 110)%N then Some "010"%char
  else if (n =? 114)%N then Some "013"%char
  else if (n =? 116)%N then Some "009"%char
  else None.

Definition cons_char (c : ascii) (r : option (string * string)) : option (string * string) :=
  match r with
  | Some (s, rest) => Some (String c s, rest)
  | None => None
  end.

(** The characters of a string literal after its opening quote, up to and
    including the closing quote.  A \u escape above 8 bits has no code unit
    in this model and is refused. *)
Fixpoint parse_chars (s : string) : option (string * string) :=
  match s with
  | EmptyString => None
  | String c rest =>
      if Ascii.eqb c dquote then Some (EmptyString, rest)
      else if Ascii.eqb c backslash then
        match rest with
        | EmptyString => None
        | String e rest1 =>
            if Ascii.eqb e "u" then
              match rest1 with
              | String h1 (String h2 (String h3 (String h4 rest2))) =>
                  match hex4 h1 h2 h3 h4 with
                  | Some n =>
                      if (n <? 256)%N then cons_char (ascii_of_N n) (parse_chars rest2)
                      else None
                  | None => None
                  end
              | _ => None
              end
            else
              match unescape e with
              | Some c' => cons_char c' (parse_chars rest1)
              | None => None
              end
        end
      else if (N_of_ascii c <? 32)%N then None
      else cons_char c (parse_chars rest)
  end.

Definition starts_fraction (s : string) : bool :=
  match s with
  | String c _ => Ascii.eqb c "." || Ascii.eqb c "e" || Ascii.eqb c "E"
  | EmptyString => false
  end.

Definition strip_minus (s : string) : bool * string :=
  match s with
  | String c s' => if Ascii.eqb c "-" then (true, s') else (false, s)
  | EmptyString => (false, s)
  end.

(** A number: an optional minus sign, then 0 or a digit run with no leading
    zero.  A fraction or an exponent lies outside the integers and is
    refused, and an integer beyond the safe integers is kept as written;
    the values stated about below are the serializable ones, whose numbers
    are safe integers. *)
Definition parse_number (s : string) : option (JsValue * string) :=
  let '(neg, s1) := strip_minus s in
  let '(ds, rest) := span_digits s1 in
  match NilEmpty.uint_of_string ds with
  | Some u =>
      if negb (Decimal.uint_beq (Decimal.unorm u) u) then None
      else if starts_fraction rest then None
      else Some (JsNumber (Z.of_int (if neg then Decimal.Neg u else Decimal.Pos u)), rest)
  | None => None
  end.

Fixpoint strip_prefix (p s : string) : option string :=
  match p, s with
  | EmptyString, _ => Some s
  | String a p', String b s' => if Ascii.eqb a b then strip_prefix p' s' else None
  | String _ _, EmptyString => None
  end.

Definition literal (word : string) (v : JsValue) (s : string) : option (JsValue * string) :=
  match strip_prefix word s with
  | Some rest => Some (v, rest)
  | None => None
  end.

(** CreateDataProperty on an object under construction: a repeated key
    keeps its place and takes the later value. *)
Fixpoint set_property (k : string) (v : JsValue) (ps : list (string * JsValue))
  : list (string * JsValue) :=
  match ps with
  | [] => [(k, v)]
  | (k', v') :: ps' =>
      if String.eqb k k' then (k, v) :: ps' else (k', v') :: set_property k v ps'
  end.

Fixpoint parse_value (fuel : nat) (s : string) {struct fuel} : option (JsValue * string) :=
  match fuel with
  | O => None
  | S fuel' =>
      match skip_ws s with
      | EmptyString => None
      | String c rest =>
          if Ascii.eqb c "n" then literal "ull" JsNull rest
          else if Ascii.eqb c "t" then literal "rue" (JsBool true) rest
          else if Ascii.eqb c "f" then literal "alse" (JsBool false) rest
          else if Ascii.eqb c dquote then
            match parse_chars rest with
            | Some (str, rest') => Some (JsString str, rest')
            | None => None
            end
          else if Ascii.eqb c "[" then
            match skip_ws rest with
            | String c' rest' =>
                if Ascii.eqb c' "]" then Some (JsArray [], rest')
                else
                  match parse_elements fuel' rest with
                  | Some (items, rest'') => Some (JsArray items, rest'')
                  | None => None
                  end
            | EmptyString => None
            end
          else if Ascii.eqb c "{" then
            match skip_ws rest with
            | String c' rest' =>
                if Ascii.eqb c' "}" then Some (JsObject [], rest')
                else
                  match parse_members fuel' [] rest with
                  | Some (props, rest'') => Some (JsObject props, rest'')
                  | None => None
                  end
            | EmptyString => None
            end
          else if Ascii.eqb c "-" || is_digit c then parse_number (String c rest)
          else None
      end
  end
with parse_elements (fuel : nat) (s : string) {struct fuel} : option (list JsValue * string) :=
  match fuel with
  | O => None
  | S fuel' =>
      match parse_value fuel' s with
      | Some (x, rest) =>
          match skip_ws rest with
          | String c rest' =>
              if Ascii.eqb c "," then
                match parse_elements fuel' rest' with
                | Some (xs, rest'') => Some (x :: xs, rest'')
                | None => None
                end
              else if Ascii.eqb c "]" then Some ([x], rest')
              else None
          | EmptyString => None
          end
      | None => None
      end
  end
with parse_members (fuel : nat) (acc : list (string * JsValue)) (s : string) {struct fuel}
  : option (list (string * JsValue) * string) :=
  match fuel with
  | O => None
  | S fuel' =>
      match skip_ws s with
      | String q rest =>
          if Ascii.eqb q dquote then
            match parse_chars rest with
            | Some (k, rest1) =>
                match skip_ws rest1 with
                | String colon rest2 =>
                    if Ascii.eqb colon ":" then
                      match parse_value fuel' rest2 with
                      | Some (x, rest3) =>
                          match skip_ws rest3 with
                          | String c rest4 =>
                              if Ascii.eqb c "," then
                                parse_members fuel' (set_property k x acc) rest4
                              else if Ascii.eqb c "}" then
                                Some (set_property k x acc, rest4)
                              else None
                          | EmptyString => None
                          end
                      | None => None
                      end
                    else None
                | EmptyString => None
                end
            | None => None
            end
          else None
      | EmptyString => None
      end
  end.

(** JSON.parse of a text: one value, then nothing but white space.  [None]
    is the SyntaxError it throws.  The text's length bounds the recursion. *)
Definition parse (s : string) : option JsValue :=
  match parse_value (S (String.length s)) s with
  | Some (v, rest) =>
      match skip_ws rest with
      | EmptyString => Some v
      | String _ _ => None
      end
  | None => None
  end.

(** ** The values JSON carries faithfully *)

Definition max_safe_integer : Z := 9007199254740991.

Fixpoint distinct (ks : list string) : bool :=
  match ks with
  | [] => true
  | k :: ks' => negb (existsb (String.eqb k) ks') && distinct ks'
  end.

(** No [undefined] anywhere, numbers within the safe integers, property
    names of an object pairwise different. *)
Fixpoint serializable (v : JsValue) : bool :=
  match v with
  | JsUndefined => false
  | JsNull | JsBool _ | JsString _ => true
  | JsNumber n => (Z.abs n <=? max_safe_integer)%Z
  | JsArray items => forallb serializable items
  | JsObject props =>
      distinct (map fst props) && forallb (fun p => serializable (snd p)) props
  end.

(** ** Vocabulary of the round-trip lemmas *)

Definition starts_digit (s : string) : bool :=
  match s with
  | String c _ => is_digit c
  | EmptyString => false
  end.

(** What may follow a value inside a text that [serialize] wrote. *)
Definition delimited (rest : string) : bool :=
  match rest with
  | EmptyString => true
  | String c _ => Ascii.eqb c "," || Ascii.eqb c "]" || Ascii.eqb c "}"
  end.

(** The characters a serialized value can begin with. *)
Definition value_start (c : ascii) : bool :=
  Ascii.eqb c "n" || Ascii.eqb c "t" || Ascii.eqb c "f" || Ascii.eqb c dquote
  || Ascii.eqb c "[" || Ascii.eqb c "{" || Ascii.eqb c "-" || is_digit c.

(** [v] is read back from its own text, whatever delimiter follows it. *)
Definition parses_back (v : JsValue) : Prop :=
  forall (s : string) (fuel : nat) (rest : string),
    serialize v = Some s ->
    (String.length s <= fuel)%nat ->
    delimited rest = true ->
    parse_value fuel (s +:+ rest) = Some (v, rest).

End JSON.

(* ===================================================================== *)
(** * 2. Errors and the shape of a call's result *)
(* ===================================================================== *)

Inductive Exception : Type :=
| InvalidStateException (correlationId code message : string)
| ConfigException (correlationId code message : string)
| RedisError (message : string)
| TypeError (message : string)
| SyntaxError.

(** How a call ends.  [Ok a]: it returned [a], or its promise was fulfilled
    with [a].  [Rejected e]: its promise was rejected.  [Thrown e]: it threw
    before handing out a promise.  [Uncaught e]: an exception escaped a
    callback of the client, so the promise is never settled. *)
Inductive Result (A : Type) : Type :=
| Ok (a : A)
| Rejected (e : Exception)
| Thrown (e : Exception)
| Uncaught (e : Exception).

Arguments Ok {A} a.
Arguments Rejected {A} e.
Arguments Thrown {A} e.
Arguments Uncaught {A} e.

(** Code running against a component of type [T] and the outside world
    of type [W]; state changes made before a failure stay. *)
Definition M (T W A : Type) : Type := T * W -> Result A * (T * W).

Section Monad.
Context {T W : Type}.

Definition ret {A} (a : A) : M T W A := fun st => (Ok a, st).

Definition bind {A B} (m : M T W A) (k : A -> M T W B) : M T W B :=
  fun st =>
    match m st with
    | (Ok a, st') => k a st'
    | (Rejected e, st') => (Rejected e, st')
    | (Thrown e, st') => (Thrown e, st')
    | (Uncaught e, st') => (Uncaught e, st')
    end.

Definition throw {A} (e : Exception) : M T W A := fun st => (Thrown e, st).
Definition reject {A} (e : Exception) : M T W A := fun st => (Rejected e, st).
Definition resolve {A} (a : A) : M T W A := ret a.

Definition this : M T W T := fun st => (Ok (fst st), st).
Definition assign (f : T -> T) : M T W unit := fun st => (Ok tt, (f (fst st), snd st)).

(** The body of an [async] function: what it throws rejects its promise. *)
Definition async {A} (body : M T W A) : M T W A :=
  fun st =>
    match body st with
    | (Thrown e, st') => (Rejected e, st')
    | r => r
    end.

(** [await p]: a rejection of [p] is thrown at the await. *)
Definition await {A} (p : M T W A) : M T W A :=
  fun st =>
    match p st with
    | (Rejected e, st') => (Thrown e, st')
    | r => r
    end.

(** A callback run by the client: its reject and resolve settle the
    promise, an exception it throws escapes. *)
Definition in_callback {A} (body : M T W A) : M T W A :=
  fun st =>
    match body st with
    | (Thrown e, st') => (Uncaught e, st')
    | r => r
    end.

(** [new Promise(executor)]: an exception of the executor itself rejects. *)
Definition new_Promise {A} (executor : M T W A) : M T W A :=
  fun st =>
    match executor st with
    | (Thrown e, st') => (Rejected e, st')
    | r => r
    end.
End Monad.

Notation "x <- m ;; k" := (bind m (fun x => k))
  (at level 100, m at next level, right associativity).
Notation "m ;;; k" := (bind m (fun _ => k))
  (at level 100, right associativity).

(* ===================================================================== *)
(** * 3. The collaborators *)
(* ===================================================================== *)

(** What the component imports and calls.  None of it is code of the
    repository; each collaborator is modelled as far as the component
    observes it. *)

(** ** JavaScript coercions used by the component *)

(** ToBoolean. *)
Definition truthy (v : JsValue) : bool :=
  match v with
  | JsUndefined | JsNull => false
  | JsBool b => b
  | JsNumber n => negb (n =? 0)
  | JsString s => negb (String.eqb s EmptyString)
  | JsArray _ | JsObject _ => true
  end.

(** ToString. *)
Fixpoint to_string (v : JsValue) : string :=
  match v with
  | JsUndefined => "undefined"
  | JsNull => "null"
  | JsBool true => "true"
  | JsBool false => "false"
  | JsNumber n => JSON.number_to_string n
  | JsString s => s
  | JsArray items =>
      JSON.join_comma
        (map (fun x => match x with
                       | JsUndefined | JsNull => EmptyString
                       | _ => to_string x
                       end) items)
  | JsObject _ => "[object Object]"
  end.

(** ** Configuration parameters (pip-services3-commons) *)

(** A ConfigParams is a map from dotted keys to strings. *)
Abbreviation ConfigParams := (gmap string string).

(** The conversion behind getAsIntegerWithDefault, modelled where the text
    is a decimal integer literal within the safe integers.  The library
    converts through a floating-point parse and rounds up, so it also reads
    fractions, exponents and texts with trailing characters, and rounds
    larger magnitudes; such texts are outside this model, and nothing below
    is stated about them. *)
Definition toNullableInteger (s : string) : option Z :=
  let '(neg, ds) := JSON.strip_minus s in
  match ds with
  | EmptyString => None
  | String _ _ =>
      match NilEmpty.uint_of_string ds with
      | Some u => Some (Z.of_int (if neg then Decimal.Neg u else Decimal.Pos u))
      | None => None
      end
  end.

Definition getAsIntegerWithDefault (config : ConfigParams) (key : string) (defaultValue : Z) : Z :=
  match config !! key with
  | Some s =>
      match toNullableInteger s with
      | Some n => n
      | None => defaultValue
      end
  | None => defaultValue
  end.

(** An option as a configuration may carry it: absent, or an integer
    within the safe integers. *)
Definition safe_setting (o : option Z) : bool :=
  match o with
  | Some n => Z.abs n <=? JSON.max_safe_integer
  | None => true
  end.

(** ** Connection and credential resolution (pip-services3-components) *)

(** What the accessors of a resolved connection return. *)
Record ConnectionParams : Type := {
  getUri : option string;
  getHost : option string;
  getPort : Z
}.

Record CredentialParams : Type := {
  getPassword : option string
}.

Record ConnectionResolver : Type := { _connections : list ConnectionParams }.
Record CredentialResolver : Type := { _credentials : list CredentialParams }.

Definition has_section (config : ConfigParams) (keys : list string) : bool :=
  existsb (fun k => bool_decide (is_Some (config !! k))) keys.

(** The connection section of a configuration, when it has one; an empty
    uri reads as none.  (A configuration with a connections section, which
    lists several, is not modelled.) *)
Definition ConnectionParams_manyFromConfig (config : ConfigParams) : list ConnectionParams :=
  if has_section config
       ["connection.discovery_key"; "connection.host"; "connection.port"; "connection.uri"]
  then [ {| getUri := match config !! "connection.uri" with
                      | Some u => if String.eqb u EmptyString then None else Some u
                      | None => None
                      end;
            getHost := config !! "connection.host";
            getPort := getAsIntegerWithDefault config "connection.port" 0 |} ]
  else [].

Definition CredentialParams_manyFromConfig (config : ConfigParams) : list CredentialParams :=
  if has_section config
       ["credential.store_key"; "credential.username"; "credential.password"]
  then [ {| getPassword := config !! "credential.password" |} ]
  else [].

Definition ConnectionResolver_configure (config : ConfigParams) (r : ConnectionResolver)
  : ConnectionResolver :=
  {| _connections := _connections r ++ ConnectionParams_manyFromConfig config |}.

Definition CredentialResolver_configure (config : ConfigParams) (r : CredentialResolver)
  : CredentialResolver :=
  {| _credentials := _credentials r ++ CredentialParams_manyFromConfig config |}.

(** [resolve]: the first configured connection, null when there is none. *)
Definition ConnectionResolver_resolve (r : ConnectionResolver) : option ConnectionParams :=
  head (_connections r).

Definition CredentialResolver_lookup (r : CredentialResolver) : option CredentialParams :=
  head (_credentials r).

(** ** The Redis client and the server behind it *)

(** The options bag handed to createClient.  Its retry_strategy entry is
    the component's own [retryStrategy], defined with the component. *)
Record ClientOptions : Type := {
  url : option string;
  host : option string;
  port : option Z;
  password : option (option string)
}.

Inductive ConnectionStatus : Type := Connecting | Ready | Ended.

Record Client : Type := {
  client_options : ClientOptions;
  client_status : ConnectionStatus
}.

(** A stored string and the instant, in server milliseconds, it expires at. *)
Record Entry : Type := {
  entry_value : string;
  entry_expires : Z
}.

Inductive Command : Type :=
| GET (key : string)
| SET_PX (key : string) (value : option string) (milliseconds : Z)
| SET_NX_PX (key : string) (value : string) (milliseconds : Z)
| DEL (key : string)
| QUIT.

(** Everything outside the component: the clients createClient has handed
    out (a handle is a position in this list), the server's keyspace and
    clock, the transport faults that await the coming commands, and the
    commands that went over the network, oldest first. *)
Record World : Type := {
  clients : list Client;
  keyspace : gmap string Entry;
  clock : Z;
  faults : list (option string);
  network : list (nat * Command)
}.

Definition with_clients (cs : list Client) (w : World) : World :=
  {| clients := cs; keyspace := keyspace w; clock := clock w;
     faults := faults w; network := network w |}.

Definition with_keyspace (ks : gmap string Entry) (w : World) : World :=
  {| clients := clients w; keyspace := ks; clock := clock w;
     faults := faults w; network := network w |}.

Definition with_faults (fs : list (option string)) (w : World) : World :=
  {| clients := clients w; keyspace := keyspace w; clock := clock w;
     faults := fs; network := network w |}.

Definition transmitted (h : nat) (cmd : Command) (w : World) : World :=
  {| clients := clients w; keyspace := keyspace w; clock := clock w;
     faults := faults w; network := network w ++ [(h, cmd)] |}.

(** Time passing on the server. *)
Definition elapse (ms : Z) (w : World) : World :=
  {| clients := clients w; keyspace := keyspace w; clock := clock w + ms;
     faults := faults w; network := network w |}.

(** The options createClient takes: a password entry, when the bag has
    one, must hold a string; one that holds null is refused. *)
Definition accepted (options : ClientOptions) : bool :=
  match password options with
  | Some None => false
  | _ => true
  end.

(** [redis.createClient(options)] returns at once with a client that has
    only begun to connect; [None] when it throws instead, which it does on
    options it does not accept. *)
Definition createClient (options : ClientOptions) (w : World) : option (nat * World) :=
  if accepted options then
    Some (length (clients w),
          with_clients
            (clients w ++ [ {| client_options := options; client_status := Connecting |} ]) w)
  else None.

Definition set_status (h : nat) (s : ConnectionStatus) (w : World) : World :=
  with_clients
    (alter (fun c => {| client_options := client_options c; client_status := s |}) h (clients w)) w.

(** The value a key holds now: a key is gone once the clock has passed
    its expiry instant. *)
Definition live_value (key : string) (w : World) : option string :=
  match keyspace w !! key with
  | Some e => if entry_expires e <? clock w then None else Some (entry_value e)
  | None => None
  end.

(** What a callback of the client receives: [(err, value)]. *)
Inductive Response : Type :=
| Failure (err : string)
| Success (reply : JsValue).

(** The server running one command, each command atomically.  GET replies
    the string or nil; SET replies OK, and nil when NX finds the key; DEL
    replies the number of keys it removed; a non-positive expiry and an
    undefined argument are errors. *)
Definition execute (h : nat) (cmd : Command) (w : World) : Response * World :=
  match cmd with
  | GET key =>
      (Success (match live_value key w with
                | Some s => JsString s
                | None => JsNull
                end), w)
  | SET_PX key None _ =>
      (Failure "The SET command contains a invalid argument type of undefined", w)
  | SET_PX key (Some s) ms =>
      if ms <=? 0 then (Failure "ERR invalid expire time in set", w)
      else (Success (JsString "OK"),
            with_keyspace
              (<[key := {| entry_value := s; entry_expires := clock w + ms |}]> (keyspace w)) w)
  | SET_NX_PX key s ms =>
      if ms <=? 0 then (Failure "ERR invalid expire time in set", w)
      else
        match live_value key w with
        | Some _ => (Success JsNull, w)
        | None =>
            (Success (JsString "OK"),
             with_keyspace
               (<[key := {| entry_value := s; entry_expires := clock w + ms |}]> (keyspace w)) w)
        end
  | DEL key =>
      (Success (JsNumber (match live_value key w with Some _ => 1 | None => 0 end)),
       with_keyspace (delete key (keyspace w)) w)
  | QUIT => (Success (JsString "OK"), set_status h Ended w)
  end.

(** One command of client [h].  A client that has quit answers without
    using the network.  Otherwise the command goes out (commands issued
    while connecting wait for the connection, which is then established);
    a pending transport fault comes back as the error, else the server's
    answer does.  Two things the client does on its own are not modelled
    apart: it refuses an undefined argument before anything is sent (here
    the refusal is the answer to the command), and it counts itself as
    closing from the call of quit on; what is stated below about the
    commands sent takes a value that JSON.stringify writes a text for. *)
Definition send_command (h : nat) (cmd : Command) (w : World) : Response * World :=
  match clients w !! h with
  | None => (Failure "The connection is already closed.", w)
  | Some c =>
      match client_status c with
      | Ended => (Failure "The connection is already closed.", w)
      | Connecting | Ready =>
          let w1 := transmitted h cmd w in
          match faults w1 with
          | Some err :: fs => (Failure err, with_faults fs w1)
          | _ => execute h cmd (set_status h Ready (with_faults (tail (faults w1)) w1))
          end
      end
  end.

(** No transport fault awaits the next [n] commands. *)
Fixpoint quiet (n : nat) (fs : list (option string)) : bool :=
  match n, fs with
  | O, _ => true
  | S _, [] => true
  | S n', None :: fs' => quiet n' fs'
  | S _, Some _ :: _ => false
  end.

Section ClientCalls.
Context {T : Type}.

(** A command of client [h] and the callback it ends in. *)
Definition client_command {A} (h : nat) (cmd : Command)
    (callback : option string -> JsValue -> M T World A) : M T World A :=
  fun st =>
    match send_command h cmd (snd st) with
    | (Failure err, w') => in_callback (callback (Some err) JsUndefined) (fst st, w')
    | (Success reply, w') => in_callback (callback None reply) (fst st, w')
    end.

(** JSON.stringify never throws on these values. *)
Definition JSON_stringify (v : JsValue) : option string := JSON.stringify v.

(** JSON.parse(value): the argument is converted to a string first; a
    text that is not JSON throws. *)
Definition JSON_parse (value : JsValue) : M T World JsValue :=
  match JSON.parse (to_string value) with
  | Some v => ret v
  | None => throw SyntaxError
  end.
End ClientCalls.

(* ===================================================================== *)
(** * 4. RedisCache *)
(* ===================================================================== *)

Record RedisCache : Type := {
  _connectionResolver : ConnectionResolver;
  _credentialResolver : CredentialResolver;
  _timeout : Z;
  _retries : Z;
  _client : option nat
}.

(** [new RedisCache()]: the field initialisers. *)
Definition new_RedisCache : RedisCache :=
  {| _connectionResolver := {| _connections := [] |};
     _credentialResolver := {| _credentials := [] |};
     _timeout := 30000;
     _retries := 3;
     _client := None |}.

Definition set_client (c : option nat) (self : RedisCache) : RedisCache :=
  {| _connectionResolver := _connectionResolver self;
     _credentialResolver := _credentialResolver self;
     _timeout := _timeout self;
     _retries := _retries self;
     _client := c |}.

Definition configure (config : ConfigParams) (self : RedisCache) : RedisCache :=
  {| _connectionResolver := ConnectionResolver_configure config (_connectionResolver self);
     _credentialResolver := CredentialResolver_configure config (_credentialResolver self);
     _timeout := getAsIntegerWithDefault config "options.timeout" (_timeout self);
     _retries := getAsIntegerWithDefault config "options.retries" (_retries self);
     _client := _client self |}.

Definition isOpen (self : RedisCache) : bool :=
  match _client self with
  | Some _ => true
  | None => false
  end.

(** The options [open] builds from what was resolved. *)
Definition client_options_of (connection : ConnectionParams) (credential : option CredentialParams)
  : ClientOptions :=
  {| url := getUri connection;
     host := match getUri connection with
             | Some _ => None
             | None =>
                 Some (match getHost connection with
                       | Some h => if String.eqb h EmptyString then "localhost" else h
                       | None => "localhost"
                       end)
             end;
     port := match getUri connection with
             | Some _ => None
             | None => Some (if (getPort connection =? 0)%Z then 6379 else getPort connection)
             end;
     password := match credential with
                 | Some c => Some (getPassword c)
                 | None => None
                 end |}.

Definition open (correlationId : string) : M RedisCache World unit :=
  async (
    self <- this ;;
    connection <- await (ret (ConnectionResolver_resolve (_connectionResolver self))) ;;
    match connection with
    | None =>
        throw (ConfigException correlationId "NO_CONNECTION" "Connection is not configured")
    | Some connection =>
        credential <- await (ret (CredentialResolver_lookup (_credentialResolver self))) ;;
        let options := client_options_of connection credential in
        fun st =>
          match createClient options (snd st) with
          | Some (h, w') => (Ok tt, (set_client (Some h) (fst st), w'))
          | None => (Thrown (TypeError "createClient refused the options"), st)
          end
    end).

Definition close (correlationId : string) : M RedisCache World unit :=
  async (
    self <- this ;;
    match _client self with
    | None => ret tt
    | Some h =>
        (await (new_Promise (
           client_command h QUIT (fun err _ =>
             match err with
             | Some e => reject (RedisError e)
             | None => resolve tt
             end)))) ;;;
        assign (set_client None)
    end).

Definition checkOpened (correlationId : string) : M RedisCache World unit :=
  self <- this ;;
  if negb (isOpen self) then
    throw (InvalidStateException correlationId "NOT_OPENED" "Connection is not opened")
  else ret tt.

(** What the client tells its retry strategy. *)
Record RetryError : Type := { code : string }.

Record RetryOptions : Type := {
  error : option RetryError;
  total_retry_time : Z;
  attempt : Z
}.

(** What a retry strategy answers: an Error, undefined, or a number. *)
Inductive RetryAnswer : Type :=
| AnError (message : string)
| AnUndefined
| ANumber (n : Z).

Definition retryStrategy (self : RedisCache) (options : RetryOptions) : RetryAnswer :=
  if match error options with
     | Some e => String.eqb (code e) "ECONNREFUSED"
     | None => false
     end
  then AnError "The server refused the connection"
  else if (total_retry_time options >? _timeout self)%Z then AnError "Retry time exhausted"
  else if (attempt options >? _retries self)%Z then AnUndefined
  else ANumber (Z.min (attempt options * 100) 3000).

(** [this._client], dereferenced. *)
Definition the_client : M RedisCache World nat :=
  self <- this ;;
  match _client self with
  | Some h => ret h
  | None => throw (TypeError "Cannot read properties of null")
  end.

Definition retrieve (correlationId key : string) : M RedisCache World JsValue :=
  checkOpened correlationId ;;;
  new_Promise (
    h <- the_client ;;
    client_command h (GET key) (fun err value =>
      match err with
      | Some e => reject (RedisError e)
      | None => if truthy value then (v <- JSON_parse value ;; resolve v) else resolve value
      end)).

Definition store (correlationId key : string) (value : JsValue) (timeout : Z)
  : M RedisCache World JsValue :=
  checkOpened correlationId ;;;
  new_Promise (
    h <- the_client ;;
    client_command h (SET_PX key (JSON_stringify value) timeout) (fun err value =>
      match err with
      | Some e => reject (RedisError e)
      | None => resolve value
      end)).

Definition remove (correlationId key : string) : M RedisCache World JsValue :=
  checkOpened correlationId ;;;
  new_Promise (
    h <- the_client ;;
    client_command h (DEL key) (fun err value =>
      match err with
      | Some e => reject (RedisError e)
      | None => if truthy value then (v <- JSON_parse value ;; resolve v) else resolve value
      end)).

(** What retrieve and remove make of a reply: a truthy reply is parsed as
    JSON, a falsy one is passed on as it is. *)
Definition deserialized (reply : JsValue) : Result JsValue :=
  if truthy reply then
    match JSON.parse (to_string reply) with
    | Some v => Ok v
    | None => Uncaught SyntaxError
    end
  else Ok reply.

(** Client [h] can be used: createClient has handed it out, and it has
    not quit. *)
Definition usable (h : nat) (w : World) : bool :=
  match clients w !! h with
  | Some c => match client_status c with Ended => false | _ => true end
  | None => false
  end.

(** The component is open on a client it can use. *)
Definition opened (st : RedisCache * World) : Prop :=
  exists h, _client (fst st) = Some h /\ usable h (snd st) = true.

(** The reconnect policy as the specification words it: the four answers
    and the order their conditions are tried in. *)
Definition connection_refused (options : RetryOptions) : Prop :=
  exists e, error options = Some e /\ code e = "ECONNREFUSED".

Inductive reconnect_policy (self : RedisCache) (options : RetryOptions) : RetryAnswer -> Prop :=
| policy_refused :
    connection_refused options ->
    reconnect_policy self options (AnError "The server refused the connection")
| policy_exhausted :
    ~ connection_refused options ->
    total_retry_time options > _timeout self ->
    reconnect_policy self options (AnError "Retry time exhausted")
| policy_no_more :
    ~ connection_refused options ->
    total_retry_time options <= _timeout self ->
    attempt options > _retries self ->
    reconnect_policy self options AnUndefined
| policy_delay :
    ~ connection_refused options ->
    total_retry_time options <= _timeout self ->
    attempt options <= _retries self ->
    reconnect_policy self options (ANumber (Z.min (attempt options * 100) 3000)).



(* ===================================================================== *)
(** * 5. RedisLock *)
(* ===================================================================== *)

Module RedisLock.

(** Modelled from the spec: src/lock/RedisLock.ts is not among the
    sources.  The lock component owns one connection handle, as the cache
    does, and a holder token that it writes as the value of a lease. *)
Record RedisLock : Type := {
  _client : option nat;
  _lock : string
}.

(** Modelled from the spec: the lock keeps its connection as the cache
    does, open exactly while it holds a handle. *)
Definition isOpen (self : RedisLock) : bool :=
  match _client self with
  | Some _ => true
  | None => false
  end.

(** Modelled from the spec: a lock operation on a component that is not
    open fails with a state error. *)
Definition checkOpened (correlationId : string) : M RedisLock World unit :=
  self <- this ;;
  if negb (isOpen self) then
    throw (InvalidStateException correlationId "NOT_OPENED" "Connection is not opened")
  else ret tt.

(** Modelled from the spec: tryAcquireLock attempts a single atomic set if
    not present, with expiry, against the store, and returns true iff the
    caller now holds the lease, false if another holder has it; no waiting
    and no retry.  A state error when not open; store errors propagated. *)
Definition tryAcquireLock (correlationId key : string) (ttl : Z) : M RedisLock World bool :=
  checkOpened correlationId ;;;
  new_Promise (
    self <- this ;;
    match _client self with
    | None => throw (TypeError "Cannot read properties of null")
    | Some h =>
        client_command h (SET_NX_PX key (_lock self) ttl) (fun err reply =>
          match err with
          | Some e => reject (RedisError e)
          | None =>
              resolve (match reply with
                       | JsString r => String.eqb r "OK"
                       | _ => false
                       end)
          end)
    end).

(** The lease on [key] is held with [token]. *)
Definition holds_lease (token key : string) (w : World) : Prop :=
  live_value key w = Some token.

(** The order in which the server receives the commands of two calls. *)
Inductive Arrival : Type := FirstThenSecond | SecondThenFirst.

(** Two calls in flight at once, one by [a] and one by [b].  Each is one
    command, so the server runs them one after the other in the order they
    arrive, [gap] milliseconds apart.  The answers are given in the order
    (a's, b's). *)
Definition race (order : Arrival) (a b : RedisLock) (key : string) (ttl gap : Z) (w : World)
  : Result bool * Result bool * World :=
  match order with
  | FirstThenSecond =>
      let '(ra, (_, w1)) := tryAcquireLock "a" key ttl (a, w) in
      let '(rb, (_, w2)) := tryAcquireLock "b" key ttl (b, elapse gap w1) in
      (ra, rb, w2)
  | SecondThenFirst =>
      let '(rb, (_, w1)) := tryAcquireLock "b" key ttl (b, w) in
      let '(ra, (_, w2)) := tryAcquireLock "a" key ttl (a, elapse gap w1) in
      (ra, rb, w2)
  end.

End RedisLock.

(* ===================================================================== *)
(** * DefaultRedisFactory *)
(* ===================================================================== *)

(** A component descriptor (pip-services3-commons): five fields, each a
    text or, written as an asterisk, left open. *)
Record Descriptor : Type := {
  getGroup : option string;
  getType : option string;
  getKind : option string;
  getName : option string;
  getVersion : option string
}.

Definition descriptor_field (s : string) : option string :=
  if String.eqb s "*" then None else Some s.

Definition new_Descriptor (group type kind name version : string) : Descriptor :=
  {| getGroup := descriptor_field group;
     getType := descriptor_field type;
     getKind := descriptor_field kind;
     getName := descriptor_field name;
     getVersion := descriptor_field version |}.

(** Two fields match when either is left open or both are the same text. *)
Definition matchField (a b : option string) : bool :=
  match a, b with
  | Some x, Some y => String.eqb x y
  | _, _ => true
  end.

Definition Descriptor_match (d1 d2 : Descriptor) : bool :=
  matchField (getGroup d1) (getGroup d2)
  && matchField (getType d1) (getType d2)
  && matchField (getKind d1) (getKind d2)
  && matchField (getName d1) (getName d2)
  && matchField (getVersion d1) (getVersion d2).

(** The classes the factory registers. *)
Inductive ComponentClass : Type := RedisCacheClass | RedisLockClass.

(** The registrations of a Factory (pip-services3-components), in the
    order they were made; [create] serves the first whose locator matches
    and answers null when none does. *)
Definition Factory : Type := list (Descriptor * ComponentClass).

Definition registerAsType (locator : Descriptor) (type : ComponentClass) (f : Factory)
  : Factory :=
  f ++ [(locator, type)].

Fixpoint Factory_create (f : Factory) (locator : Descriptor) : option ComponentClass :=
  match f with
  | [] => None
  | (thisLocator, type) :: f' =>
      if Descriptor_match thisLocator locator then Some type else Factory_create f' locator
  end.

Definition RedisCacheDescriptor : Descriptor :=
  new_Descriptor "pip-services" "cache" "redis" "*" "1.0".

Definition RedisLockDescriptor : Descriptor :=
  new_Descriptor "pip-services" "lock" "redis" "*" "1.0".

(** [new DefaultRedisFactory()]. *)
Definition new_DefaultRedisFactory : Factory :=
  registerAsType RedisLockDescriptor RedisLockClass
    (registerAsType RedisCacheDescriptor RedisCacheClass []).

(* ===================================================================== *)
(** * 6. Sample states *)
(* ===================================================================== *)

Definition empty_world : World :=
  {| clients := []; keyspace := ∅; clock := 0; faults := []; network := [] |}.

Definition localhost_config : ConfigParams :=
  <["connection.host" := "localhost"]> (<["connection.port" := "6379"]> ∅).

(** A cache configured for a local server, and the same cache opened. *)
Definition sample_cache : RedisCache := configure localhost_config new_RedisCache.

Definition sample_open : RedisCache * World := snd (open "123" (sample_cache, empty_world)).

(** The opened sample cache after a further [configure] that brings a
    credential with a user name and no password. *)
Definition sample_reconfigured : RedisCache :=
  configure (<["credential.username" := "user"]> ∅) (fst sample_open).

(** The world of the opened sample cache with [text] stored under [key]
    until the clock reads 1000. *)
Definition sample_world_with (key text : string) : World :=
  with_keyspace
    (<[key := {| entry_value := text; entry_expires := 1000 |}]> (keyspace (snd sample_open)))
    (snd sample_open).

(* ===================================================================== *)
(** * 7. Lemmas: the JSON codec *)
(* ===================================================================== *)

Module JSONFacts.
Import JSON.

Lemma append_assoc (a b c : string) : (a +:+ b) +:+ c = a +:+ (b +:+ c).
Proof. induction a as [|x a IH]; simpl; [reflexivity | now rewrite IH]. Qed.

Lemma append_cons (c : ascii) (a b : string) : String c a +:+ b = String c (a +:+ b).
Proof. reflexivity. Qed.

Lemma append_empty_r (a : string) : a +:+ EmptyString = a.
Proof. induction a as [|x a IH]; simpl; [reflexivity | now rewrite IH]. Qed.

Lemma length_append (a b : string) :
  String.length (a +:+ b) = (String.length a + String.length b)%nat.
Proof. induction a as [|x a IH]; simpl; [reflexivity | now rewrite IH]. Qed.

(** ** String literals *)

Lemma parse_chars_escape_char (c : ascii) (tail : string) :
  parse_chars (escape_char c +:+ tail) = cons_char c (parse_chars tail).
Proof.
  destruct c as [[] [] [] [] [] [] [] []]; reflexivity.
Qed.

Lemma parse_chars_escape (s rest : string) :
  parse_chars (escape s +:+ String dquote rest) = Some (s, rest).
Proof.
  induction s as [|c s IH]; simpl.
  - reflexivity.
  - rewrite append_assoc, parse_chars_escape_char, IH. reflexivity.
Qed.

Lemma parse_chars_quote (s rest : string) :
  exists body, quote s +:+ rest = String dquote body /\ parse_chars body = Some (s, rest).
Proof.
  exists (escape s +:+ String dquote rest). split.
  - unfold quote, str1. simpl. now rewrite append_assoc.
  - apply parse_chars_escape.
Qed.

(** ** Numbers *)

Lemma span_digits_uint (u : Decimal.uint) (rest : string) :
  starts_digit rest = false ->
  span_digits (NilEmpty.string_of_uint u +:+ rest) = (NilEmpty.string_of_uint u, rest).
Proof.
  intros Hrest. induction u; simpl; try (rewrite IHu; reflexivity).
  destruct rest as [|c rest]; simpl in *; [reflexivity | now rewrite Hrest].
Qed.

Lemma unorm_to_uint (p : positive) : Decimal.unorm (Pos.to_uint p) = Pos.to_uint p.
Proof.
  rewrite <- (DecimalPos.Unsigned.to_of (Pos.to_uint p)), DecimalPos.Unsigned.of_to. reflexivity.
Qed.

Lemma string_of_uint_not_minus (p : positive) :
  exists c s, NilEmpty.string_of_uint (Pos.to_uint p) = String c s /\ is_digit c = true.
Proof.
  pose proof (DecimalPos.Unsigned.to_uint_nonnil p) as Hnil.
  destruct (Pos.to_uint p); try congruence; simpl; eauto.
Qed.

Lemma delimited_facts (rest : string) :
  delimited rest = true ->
  starts_digit rest = false /\ starts_fraction rest = false /\ skip_ws rest = rest.
Proof.
  destruct rest as [|c rest]; simpl; [auto |].
  destruct c as [[] [] [] [] [] [] [] []]; simpl; try discriminate; auto.
Qed.

Lemma parse_number_uint (neg : bool) (u : Decimal.uint) (rest : string) :
  Decimal.unorm u = u ->
  delimited rest = true ->
  parse_number ((if neg then "-" else EmptyString) +:+ NilEmpty.string_of_uint u +:+ rest)
  = Some (JsNumber (Z.of_int (if neg then Decimal.Neg u else Decimal.Pos u)), rest).
Proof.
  intros Hnorm Hrest.
  destruct (delimited_facts rest Hrest) as (Hd & Hf & _).
  assert (Hu : u <> Decimal.Nil).
  { intros ->. discriminate Hnorm. }
  assert (Hhead : forall s, strip_minus (NilEmpty.string_of_uint u +:+ s)
                            = (false, NilEmpty.string_of_uint u +:+ s)).
  { intros s. destruct u; try congruence; reflexivity. }
  unfold parse_number. destruct neg; simpl.
  - rewrite span_digits_uint by assumption.
    rewrite NilEmpty.usu, Hnorm, (Decimal.internal_uint_dec_lb u u eq_refl). simpl.
    now rewrite Hf.
  - rewrite Hhead.
    rewrite span_digits_uint by assumption.
    rewrite NilEmpty.usu, Hnorm, (Decimal.internal_uint_dec_lb u u eq_refl). simpl.
    now rewrite Hf.
Qed.

Lemma parse_number_to_string (n : Z) (rest : string) :
  delimited rest = true ->
  parse_number (number_to_string n +:+ rest) = Some (JsNumber n, rest).
Proof.
  intros Hrest. unfold number_to_string.
  rewrite <- (DecimalZ.of_to n) at 2.
  destruct n as [|p|p]; simpl Z.to_int; unfold NilEmpty.string_of_int.
  - apply (parse_number_uint false (Decimal.D0 Decimal.Nil)); [reflexivity | assumption].
  - apply (parse_number_uint false); [apply unorm_to_uint | assumption].
  - apply (parse_number_uint true (Pos.to_uint p) rest); [apply unorm_to_uint | assumption].
Qed.

Lemma number_to_string_start (n : Z) :
  exists c s, number_to_string n = String c s /\ (Ascii.eqb c "-" || is_digit c = true).
Proof.
  unfold number_to_string. destruct n as [|p|p]; simpl.
  - exists "0"%char, EmptyString. split; reflexivity.
  - destruct (string_of_uint_not_minus p) as (c & s & -> & Hc).
    exists c, s. split; [reflexivity |]. rewrite Hc. apply orb_true_r.
  - eexists _, _. split; reflexivity.
Qed.

(** ** Values *)

Lemma serialize_array (items : list JsValue) :
  serialize (JsArray items) = Some ("[" +:+ join_comma (serialize_items items) +:+ "]").
Proof. reflexivity. Qed.

Lemma serialize_object (props : list (string * JsValue)) :
  serialize (JsObject props) = Some ("{" +:+ join_comma (serialize_members props) +:+ "}").
Proof. reflexivity. Qed.

Lemma serialize_start (v : JsValue) (s : string) :
  serialize v = Some s -> exists c s', s = String c s' /\ value_start c = true.
Proof.
  destruct v as [| |[]|n|str|items|props]; intros H;
    try discriminate H; try (injection H as <-; eexists _, _; split; reflexivity).
  injection H as <-.
  destruct (number_to_string_start n) as (c & s' & -> & Hc).
  exists c, s'. split; [reflexivity |].
  unfold value_start. rewrite <- !orb_assoc, Hc. now rewrite !orb_true_r.
Qed.

Lemma value_start_facts (c : ascii) :
  value_start c = true ->
  is_ws c = false /\ Ascii.eqb c "]" = false /\ Ascii.eqb c "}" = false.
Proof.
  destruct c as [[] [] [] [] [] [] [] []]; simpl; try discriminate; auto.
Qed.

Lemma serializable_defined (v : JsValue) :
  serializable v = true -> exists s, serialize v = Some s.
Proof.
  destruct v as [| |[]|n|str|items|props]; intros H; try discriminate H; eexists; reflexivity.
Qed.

(** The parser, one layer at a time. *)

Lemma parse_value_number (f : nat) (c : ascii) (s : string) :
  Ascii.eqb c "-" || is_digit c = true ->
  parse_value (S f) (String c s) = parse_number (String c s).
Proof.
  destruct c as [[] [] [] [] [] [] [] []]; simpl; try discriminate; reflexivity.
Qed.

Lemma parse_value_string (f : nat) (body : string) :
  parse_value (S f) (String dquote body)
  = match parse_chars body with
    | Some (str, rest) => Some (JsString str, rest)
    | None => None
    end.
Proof. reflexivity. Qed.

Lemma parse_value_array (f : nat) (body : string) :
  parse_value (S f) (String "[" body)
  = match skip_ws body with
    | String c' rest' =>
        if Ascii.eqb c' "]" then Some (JsArray [], rest')
        else
          match parse_elements f body with
          | Some (items, rest'') => Some (JsArray items, rest'')
          | None => None
          end
    | EmptyString => None
    end.
Proof. reflexivity. Qed.

Lemma parse_value_object (f : nat) (body : string) :
  parse_value (S f) (String "{" body)
  = match skip_ws body with
    | String c' rest' =>
        if Ascii.eqb c' "}" then Some (JsObject [], rest')
        else
          match parse_members f [] body with
          | Some (props, rest'') => Some (JsObject props, rest'')
          | None => None
          end
    | EmptyString => None
    end.
Proof. reflexivity. Qed.

Lemma parse_elements_S (f : nat) (s : string) :
  parse_elements (S f) s
  = match parse_value f s with
    | Some (x, rest) =>
        match skip_ws rest with
        | String c rest' =>
            if Ascii.eqb c "," then
              match parse_elements f rest' with
              | Some (xs, rest'') => Some (x :: xs, rest'')
              | None => None
              end
            else if Ascii.eqb c "]" then Some ([x], rest')
            else None
        | EmptyString => None
        end
    | None => None
    end.
Proof. reflexivity. Qed.

Lemma parse_members_S (f : nat) (acc : list (string * JsValue)) (body : string) :
  parse_members (S f) acc (String dquote body)
  = match parse_chars body with
    | Some (k, rest1) =>
        match skip_ws rest1 with
        | String colon rest2 =>
            if Ascii.eqb colon ":" then
              match parse_value f rest2 with
              | Some (x, rest3) =>
                  match skip_ws rest3 with
                  | String c rest4 =>
                      if Ascii.eqb c "," then parse_members f (set_property k x acc) rest4
                      else if Ascii.eqb c "}" then Some (set_property k x acc, rest4)
                      else None
                  | EmptyString => None
                  end
              | None => None
              end
            else None
        | EmptyString => None
        end
    | None => None
    end.
Proof. reflexivity. Qed.

(** ** The round trip through the text *)

Lemma serialize_nonempty (v : JsValue) (s : string) :
  serialize v = Some s -> (1 <= String.length s)%nat.
Proof.
  intros H. destruct (serialize_start v s H) as (c & s' & -> & _). simpl. lia.
Qed.

#[local] Arguments quote : simpl never.

Lemma join_comma_single (a : string) : join_comma [a] = a.
Proof. reflexivity. Qed.

Lemma serialize_members_cons (k : string) (x : JsValue) (sx : string)
    (ps : list (string * JsValue)) :
  serialize x = Some sx ->
  serialize_members ((k, x) :: ps) = (quote k +:+ ":" +:+ sx) :: serialize_members ps.
Proof. intros H. simpl. now rewrite H. Qed.

Lemma join_comma_cons (a b : string) (l : list string) :
  join_comma (a :: b :: l) = a +:+ "," +:+ join_comma (b :: l).
Proof. reflexivity. Qed.

Lemma set_property_fresh (k : string) (v : JsValue) (acc : list (string * JsValue)) :
  ~ In k (map fst acc) -> set_property k v acc = acc ++ [(k, v)].
Proof.
  induction acc as [|[k' v'] acc IH]; simpl; intros Hk; [reflexivity |].
  destruct (String.eqb_spec k k') as [->|Hne].
  - exfalso. apply Hk. now left.
  - rewrite IH; [reflexivity |]. intros Hin. apply Hk. now right.
Qed.

Lemma distinct_NoDup (ks : list string) : distinct ks = true -> List.NoDup ks.
Proof.
  induction ks as [|k ks IH]; simpl; intros H; [constructor |].
  apply andb_true_iff in H as [Hk Hks]. constructor; [| now apply IH].
  intros Hin. apply negb_true_iff in Hk.
  assert (existsb (String.eqb k) ks = true) as Hex.
  { apply existsb_exists. exists k. split; [assumption | apply String.eqb_refl]. }
  congruence.
Qed.

Lemma parse_elements_items (items : list JsValue) :
  items <> [] ->
  Forall (fun x => serializable x = true /\ parses_back x) items ->
  forall (fuel : nat) (rest : string),
    (String.length (join_comma (serialize_items items)) < fuel)%nat ->
    parse_elements fuel (join_comma (serialize_items items) +:+ "]" +:+ rest)
    = Some (items, rest).
Proof.
  induction items as [|x items IH]; [congruence |].
  intros _ Hall fuel rest Hfuel.
  inversion Hall as [|? ? [Hx Hback] Hall']; subst.
  destruct (serializable_defined x Hx) as [sx Hsx].
  pose proof (serialize_nonempty x sx Hsx) as Hlen.
  destruct fuel as [|f]; [lia |].
  rewrite parse_elements_S.
  destruct items as [|y items].
  - unfold serialize_items in *. simpl in *. rewrite Hsx in *. simpl in *.
    rewrite (Hback sx f _ Hsx) by (reflexivity || lia).
    reflexivity.
  - assert (Hjoin : join_comma (serialize_items (x :: y :: items))
                    = sx +:+ "," +:+ join_comma (serialize_items (y :: items))).
    { unfold serialize_items. simpl map. now rewrite Hsx. }
    rewrite Hjoin in *.
    remember (join_comma (serialize_items (y :: items))) as tail eqn:Htail.
    rewrite !length_append in Hfuel. simpl String.length in Hfuel.
    rewrite !append_assoc.
    rewrite (Hback sx f _ Hsx) by (reflexivity || lia).
    simpl. subst tail.
    change (String "]" rest) with ("]" +:+ rest).
    rewrite IH; [reflexivity | congruence | assumption | lia].
Qed.

Lemma quote_append (k tail : string) :
  quote k +:+ tail = String dquote (escape k +:+ String dquote tail).
Proof. unfold quote, str1. simpl. now rewrite append_assoc. Qed.

Lemma parse_members_props (props : list (string * JsValue)) :
  props <> [] ->
  Forall (fun p => serializable (snd p) = true /\ parses_back (snd p)) props ->
  forall (acc : list (string * JsValue)) (fuel : nat) (rest : string),
    List.NoDup (map fst (acc ++ props)) ->
    (String.length (join_comma (serialize_members props)) < fuel)%nat ->
    parse_members fuel acc (join_comma (serialize_members props) +:+ "}" +:+ rest)
    = Some (acc ++ props, rest).
Proof.
  induction props as [|[k x] props IH]; [congruence |].
  intros _ Hall acc fuel rest Hnodup Hfuel.
  inversion Hall as [|? ? [Hx Hback] Hall']; subst. simpl in Hx, Hback.
  destruct (serializable_defined x Hx) as [sx Hsx].
  pose proof (serialize_nonempty x sx Hsx) as Hlen.
  assert (Hfresh : ~ In k (map fst acc)).
  { rewrite map_app in Hnodup. simpl in Hnodup.
    apply List.NoDup_remove_2 in Hnodup. intros Hin. apply Hnodup.
    apply in_or_app. now left. }
  destruct fuel as [|f]; [lia |].
  rewrite (serialize_members_cons k x sx props Hsx) in *.
  destruct props as [|[k' y] props].
  - change (serialize_members []) with (@nil string) in *.
    rewrite join_comma_single in *.
    rewrite !length_append in Hfuel. simpl String.length in Hfuel.
    rewrite !append_assoc, quote_append, parse_members_S, parse_chars_escape.
    simpl.
    rewrite (Hback sx f _ Hsx) by (reflexivity || lia).
    simpl. now rewrite set_property_fresh.
  - destruct (serialize_members ((k', y) :: props)) as [|m ms] eqn:Hms.
    { inversion Hall' as [|? ? [Hy _] _]; subst. simpl in Hy.
      destruct (serializable_defined y Hy) as [sy Hsy].
      rewrite (serialize_members_cons k' y sy props Hsy) in Hms. discriminate. }
    rewrite join_comma_cons in *.
    remember (join_comma (m :: ms)) as tail eqn:Htail.
    rewrite !length_append in Hfuel. simpl String.length in Hfuel.
    rewrite !append_assoc, quote_append, parse_members_S, parse_chars_escape.
    simpl.
    rewrite (Hback sx f _ Hsx) by (reflexivity || lia).
    simpl.
    rewrite set_property_fresh by assumption.
    replace (acc ++ (k, x) :: (k', y) :: props) with ((acc ++ [(k, x)]) ++ (k', y) :: props)
      by (now rewrite <- List.app_assoc).
    subst tail. rewrite <- Hms in *.
    change (String "}" rest) with ("}" +:+ rest).
    apply IH; [congruence | assumption | | lia].
    now rewrite <- List.app_assoc.
Qed.

Lemma parse_serialize (v : JsValue) : serializable v = true -> parses_back v.
Proof.
  induction v as [| |b|n|str|items IH|props IH] using JsValue_induction;
    intros Hser s fuel rest Hs Hfuel Hrest.
  - discriminate.
  - injection Hs as <-. destruct fuel; [simpl in Hfuel; lia | reflexivity].
  - destruct b; injection Hs as <-; (destruct fuel; [simpl in Hfuel; lia | reflexivity]).
  - injection Hs as <-.
    destruct (number_to_string_start n) as (c & s' & Heq & Hc).
    destruct fuel; [rewrite Heq in Hfuel; simpl in Hfuel; lia |].
    pose proof (parse_number_to_string n rest Hrest) as Hnum.
    rewrite Heq in *. simpl append in *.
    now rewrite parse_value_number.
  - injection Hs as <-.
    destruct fuel; [simpl in Hfuel; lia |].
    rewrite quote_append, parse_value_string, parse_chars_escape. reflexivity.
  - rewrite serialize_array in Hs. injection Hs as <-.
    destruct fuel as [|f]; [simpl in Hfuel; lia |].
    simpl in Hser.
    assert (Hall : Forall (fun x => serializable x = true /\ parses_back x) items).
    { rewrite List.Forall_forall in *. intros x Hin.
      pose proof (proj1 (forallb_forall _ _) Hser x Hin) as Hx. auto. }
    rewrite append_cons, append_assoc, parse_value_array.
    simpl in Hfuel. rewrite length_append in Hfuel. simpl in Hfuel.
    destruct items as [|x items]; [reflexivity |].
    rewrite (parse_elements_items (x :: items)) by (congruence || assumption || lia).
    inversion Hall as [|? ? [Hx _] _]; subst.
    destruct (serializable_defined x Hx) as [sx Hsx].
    destruct (serialize_start x sx Hsx) as (c & s' & -> & Hc).
    destruct (value_start_facts c Hc) as (Hws & Hclose & _).
    assert (exists tail, join_comma (serialize_items (x :: items)) +:+ "]" +:+ rest
                         = String c tail) as [tail ->].
    { unfold serialize_items. rewrite map_cons, Hsx. simpl default.
      destruct (map _ items); simpl; eauto. }
    simpl. now rewrite Hws, Hclose.
  - rewrite serialize_object in Hs. injection Hs as <-.
    destruct fuel as [|f]; [simpl in Hfuel; lia |].
    simpl in Hser. apply andb_true_iff in Hser as [Hdistinct Hser].
    assert (Hall : Forall (fun p => serializable (snd p) = true /\ parses_back (snd p)) props).
    { rewrite List.Forall_forall in *. intros p Hin.
      pose proof (proj1 (forallb_forall _ _) Hser p Hin) as Hp. auto. }
    rewrite append_cons, append_assoc, parse_value_object.
    simpl in Hfuel. rewrite length_append in Hfuel. simpl in Hfuel.
    destruct props as [|[k x] props]; [reflexivity |].
    rewrite (parse_members_props ((k, x) :: props))
      by (congruence || assumption || lia || (simpl; now apply distinct_NoDup)).
    inversion Hall as [|? ? [Hx _] _]; subst. simpl in Hx.
    destruct (serializable_defined x Hx) as [sx Hsx].
    assert (exists tail, join_comma (serialize_members ((k, x) :: props)) +:+ "}" +:+ rest
                         = String dquote tail) as [tail ->].
    { simpl. rewrite Hsx. destruct (serialize_members props); simpl; eauto. }
    reflexivity.
Qed.

(** JSON.parse undoes JSON.stringify, and what JSON.stringify writes is
    never the empty text. *)
Lemma parse_stringify (v : JsValue) :
  serializable v = true ->
  exists s, stringify v = Some s /\ s <> EmptyString /\ parse s = Some v.
Proof.
  intros Hser. destruct (serializable_defined v Hser) as [s Hs].
  exists s. split; [assumption |]. split.
  - destruct (serialize_start v s Hs) as (c & s' & -> & _). discriminate.
  - unfold parse.
    pose proof (parse_serialize v Hser s (S (String.length s)) EmptyString Hs) as H.
    rewrite append_empty_r in H. rewrite H by (reflexivity || lia). reflexivity.
Qed.

End JSONFacts.

(* ===================================================================== *)
(** * 8. Lemmas: the client, the server and the calls of the cache *)
(* ===================================================================== *)

Lemma quiet_split (n : nat) (fs : list (option string)) :
  quiet (S n) fs = true -> quiet 1 fs = true /\ quiet n (tail fs) = true.
Proof.
  destruct fs as [|[e|] fs]; simpl; intros H; try discriminate; split; auto.
  now destruct n.
Qed.

(** With no fault pending, a command of a usable client reaches the server. *)
Lemma send_command_quiet (h : nat) (cmd : Command) (w : World) :
  usable h w = true ->
  quiet 1 (faults w) = true ->
  send_command h cmd w
  = execute h cmd (set_status h Ready (with_faults (tail (faults w)) (transmitted h cmd w))).
Proof.
  unfold send_command, usable. intros Hu Hq.
  destruct (clients w !! h) as [c|]; [| discriminate].
  destruct (client_status c); try discriminate;
    simpl; destruct (faults w) as [|[e|] fs]; simpl in *; try discriminate; reflexivity.
Qed.

(** A pending fault comes back as the error, and the server sees nothing. *)
Lemma send_command_fault (h : nat) (cmd : Command) (w : World) (err : string)
    (fs : list (option string)) :
  usable h w = true ->
  faults w = Some err :: fs ->
  send_command h cmd w = (Failure err, with_faults fs (transmitted h cmd w)).
Proof.
  unfold send_command, usable. intros Hu Hf.
  destruct (clients w !! h) as [c|]; [| discriminate].
  destruct (client_status c); try discriminate; simpl; now rewrite Hf.
Qed.

Lemma usable_set_status_ready (h h' : nat) (w w' : World) :
  clients w' = clients w ->
  usable h' w = true ->
  usable h' (set_status h Ready w') = true.
Proof.
  unfold usable, set_status. simpl. intros -> Hu.
  rewrite list_lookup_alter. destruct (decide (h = h')) as [->|Hne].
  - destruct (clients w !! h') as [c|]; [reflexivity | discriminate].
  - assumption.
Qed.

(** The calls of an open cache, read off the reply of their one command. *)

Lemma store_open (cid key : string) (value : JsValue) (timeout : Z)
    (c : RedisCache) (w : World) (h : nat) :
  _client c = Some h ->
  store cid key value timeout (c, w)
  = match send_command h (SET_PX key (JSON.stringify value) timeout) w with
    | (Failure err, w') => (Rejected (RedisError err), (c, w'))
    | (Success reply, w') => (Ok reply, (c, w'))
    end.
Proof.
  intros Hc.
  unfold store, checkOpened, the_client, client_command, new_Promise, in_callback, bind,
    this, isOpen, JSON_stringify.
  simpl. rewrite Hc. simpl. rewrite Hc. simpl.
  destruct (send_command h _ w) as [[err|reply] w']; reflexivity.
Qed.

Lemma retrieve_open (cid key : string) (c : RedisCache) (w : World) (h : nat) :
  _client c = Some h ->
  retrieve cid key (c, w)
  = match send_command h (GET key) w with
    | (Failure err, w') => (Rejected (RedisError err), (c, w'))
    | (Success reply, w') => (deserialized reply, (c, w'))
    end.
Proof.
  intros Hc.
  unfold retrieve, checkOpened, the_client, client_command, new_Promise, in_callback, bind,
    this, isOpen, deserialized, JSON_parse.
  simpl. rewrite Hc. simpl. rewrite Hc. simpl.
  destruct (send_command h _ w) as [[err|reply] w']; [reflexivity |].
  simpl. destruct (truthy reply); [| reflexivity].
  unfold resolve, ret, throw. destruct (JSON.parse (to_string reply)); reflexivity.
Qed.

Lemma remove_open (cid key : string) (c : RedisCache) (w : World) (h : nat) :
  _client c = Some h ->
  remove cid key (c, w)
  = match send_command h (DEL key) w with
    | (Failure err, w') => (Rejected (RedisError err), (c, w'))
    | (Success reply, w') => (deserialized reply, (c, w'))
    end.
Proof.
  intros Hc.
  unfold remove, checkOpened, the_client, client_command, new_Promise, in_callback, bind,
    this, isOpen, deserialized, JSON_parse.
  simpl. rewrite Hc. simpl. rewrite Hc. simpl.
  destruct (send_command h _ w) as [[err|reply] w']; [reflexivity |].
  simpl. destruct (truthy reply); [| reflexivity].
  unfold resolve, ret, throw. destruct (JSON.parse (to_string reply)); reflexivity.
Qed.

Lemma close_open (cid : string) (c : RedisCache) (w : World) (h : nat) :
  _client c = Some h ->
  close cid (c, w)
  = match send_command h QUIT w with
    | (Failure err, w') => (Rejected (RedisError err), (c, w'))
    | (Success _, w') => (Ok tt, (set_client None c, w'))
    end.
Proof.
  intros Hc.
  unfold close, async, await, client_command, new_Promise, in_callback, bind, this, assign.
  simpl. rewrite Hc. simpl.
  destruct (send_command h QUIT w) as [[err|reply] w']; reflexivity.
Qed.

Lemma open_resolved (cid : string) (c : RedisCache) (w : World) (connection : ConnectionParams) :
  ConnectionResolver_resolve (_connectionResolver c) = Some connection ->
  accepted (client_options_of connection (CredentialResolver_lookup (_credentialResolver c)))
    = true ->
  open cid (c, w)
  = (Ok tt,
     (set_client (Some (length (clients w))) c,
      with_clients
        (clients w ++
         [ {| client_options :=
                client_options_of connection (CredentialResolver_lookup (_credentialResolver c));
              client_status := Connecting |} ]) w)).
Proof.
  intros Hr Hacc. unfold open, async, await, bind, this, ret, createClient. simpl.
  rewrite Hr. simpl. rewrite Hacc. reflexivity.
Qed.

(** When createClient refuses the options, [open] rejects and nothing has
    changed. *)
Lemma open_refused (cid : string) (c : RedisCache) (w : World) (connection : ConnectionParams) :
  ConnectionResolver_resolve (_connectionResolver c) = Some connection ->
  accepted (client_options_of connection (CredentialResolver_lookup (_credentialResolver c)))
    = false ->
  exists e, open cid (c, w) = (Rejected e, (c, w)).
Proof.
  intros Hr Hacc. unfold open, async, await, bind, this, ret, createClient. simpl.
  rewrite Hr. simpl. rewrite Hacc. eexists. reflexivity.
Qed.

(** What is known once [open] has resolved. *)
Lemma open_resolves_inv (cid : string) (c c' : RedisCache) (w w' : World) :
  open cid (c, w) = (Ok tt, (c', w')) ->
  exists connection,
    ConnectionResolver_resolve (_connectionResolver c) = Some connection /\
    accepted (client_options_of connection (CredentialResolver_lookup (_credentialResolver c)))
      = true /\
    c' = set_client (Some (length (clients w))) c /\
    w' = with_clients
           (clients w ++
            [ {| client_options :=
                   client_options_of connection
                     (CredentialResolver_lookup (_credentialResolver c));
                 client_status := Connecting |} ]) w.
Proof.
  intros Hopen.
  destruct (ConnectionResolver_resolve (_connectionResolver c)) as [connection|] eqn:Hr.
  - destruct (accepted (client_options_of connection
                          (CredentialResolver_lookup (_credentialResolver c)))) eqn:Hacc.
    + rewrite (open_resolved cid c w connection Hr Hacc) in Hopen.
      injection Hopen as <- <-. exists connection. repeat split; reflexivity || assumption.
    + destruct (open_refused cid c w connection Hr Hacc) as [e He].
      rewrite He in Hopen. discriminate.
  - unfold open, async, await, bind, this, ret, throw in Hopen. simpl in Hopen.
    rewrite Hr in Hopen. discriminate.
Qed.

Lemma usable_clients (h : nat) (w w' : World) :
  clients w' = clients w -> usable h w' = usable h w.
Proof. unfold usable. now intros ->. Qed.

(** A SET with a positive expiry, run by the server for a usable client. *)
Lemma store_accepted (cid key : string) (value : JsValue) (s : string) (timeout : Z)
    (c : RedisCache) (w : World) (h : nat) :
  _client c = Some h ->
  usable h w = true ->
  quiet 1 (faults w) = true ->
  JSON.stringify value = Some s ->
  0 < timeout ->
  store cid key value timeout (c, w)
  = (Ok (JsString "OK"),
     (c, with_keyspace
           (<[key := {| entry_value := s; entry_expires := clock w + timeout |}]> (keyspace w))
           (set_status h Ready
              (with_faults (tail (faults w)) (transmitted h (SET_PX key (Some s) timeout) w))))).
Proof.
  intros Hc Hu Hq Hs Ht.
  rewrite (store_open _ _ _ _ _ _ h Hc), Hs, send_command_quiet by assumption.
  unfold execute. destruct (Z.leb_spec timeout 0) as [Hle|_]; [lia | reflexivity].
Qed.

(** ** The component stays usable *)

Lemma execute_clients (h : nat) (cmd : Command) (w : World) :
  cmd <> QUIT -> clients (snd (execute h cmd w)) = clients w.
Proof.
  intros Hcmd. destruct cmd as [key|key [s|] ms|key s ms|key|]; simpl; try congruence.
  - destruct (ms <=? 0); reflexivity.
  - destruct (ms <=? 0); [reflexivity |]. destruct (live_value key w); reflexivity.
Qed.

Lemma send_command_keeps_usable (h h' : nat) (cmd : Command) (w : World) :
  cmd <> QUIT ->
  usable h' w = true ->
  usable h' (snd (send_command h cmd w)) = true.
Proof.
  intros Hcmd Hu. unfold send_command.
  destruct (clients w !! h) as [c|]; [| assumption].
  destruct (client_status c); try assumption;
    simpl; destruct (faults w) as [|[e|] fs]; simpl;
    try assumption;
    (rewrite (usable_clients h' (set_status h Ready w)) by (now rewrite execute_clients);
     now apply (usable_set_status_ready h h' w w)).
Qed.

(** When [open] resolves the component is open on a usable client. *)
Lemma open_gives_opened (cid : string) (c c' : RedisCache) (w w' : World) :
  open cid (c, w) = (Ok tt, (c', w')) ->
  opened (c', w').
Proof.
  intros Hopen.
  destruct (open_resolves_inv cid c c' w w' Hopen) as (connection & _ & _ & -> & ->).
  exists (length (clients w)). split; [reflexivity |].
  unfold usable. simpl. now rewrite list_lookup_middle.
Qed.

(** retrieve, store and remove leave an open component open. *)
Lemma data_calls_keep_opened
    (cid key : string) (value : JsValue) (timeout : Z) (c : RedisCache) (w : World) :
  opened (c, w) ->
  opened (snd (retrieve cid key (c, w))) /\
  opened (snd (store cid key value timeout (c, w))) /\
  opened (snd (remove cid key (c, w))).
Proof.
  intros (h & Hc & Hu). simpl in Hc, Hu.
  rewrite (retrieve_open cid key c w h Hc), (store_open cid key value timeout c w h Hc),
    (remove_open cid key c w h Hc).
  repeat split.
  - pose proof (send_command_keeps_usable h h (GET key) w ltac:(discriminate) Hu) as H.
    destruct (send_command h (GET key) w) as [[err|reply] w']; exists h; split; assumption.
  - pose proof (send_command_keeps_usable h h (SET_PX key (JSON.stringify value) timeout) w
                  ltac:(discriminate) Hu) as H.
    destruct (send_command h _ w) as [[err|reply] w']; exists h; split; assumption.
  - pose proof (send_command_keeps_usable h h (DEL key) w ltac:(discriminate) Hu) as H.
    destruct (send_command h (DEL key) w) as [[err|reply] w']; exists h; split; assumption.
Qed.

(* ===================================================================== *)
(** * 9. The properties of the component *)
(* ===================================================================== *)

(** C1. Round trip: on an open cache whose transport is sound for the two
    commands, storing a JSON-serializable value [v] under [k] for [t]
    milliseconds and retrieving [k] when [d < t] milliseconds have passed
    gives back [v].  The null value is among the serializable ones. *)
Theorem store_retrieve_round_trip
    (cid cid' k : string) (v : JsValue) (t d : Z) (c : RedisCache) (w : World) :
  opened (c, w) ->
  JSON.serializable v = true ->
  quiet 2 (faults w) = true ->
  0 <= d < t ->
  exists reply w1 w2,
    store cid k v t (c, w) = (Ok reply, (c, w1)) /\
    retrieve cid' k (c, elapse d w1) = (Ok v, (c, w2)).
Proof.
  intros (h & Hc & Hu) Hser Hq Hd. simpl in Hc, Hu.
  destruct (JSONFacts.parse_stringify v Hser) as (s & Hs & Hne & Hparse).
  destruct (quiet_split 1 _ Hq) as [Hq1 Hq2].
  rewrite (store_accepted cid k v s t c w h) by (assumption || lia).
  eexists _, _, _. split; [reflexivity |].
  rewrite (retrieve_open _ _ _ _ h Hc).
  rewrite send_command_quiet.
  - unfold execute, live_value. simpl keyspace. rewrite lookup_insert_eq. simpl.
    destruct (Z.ltb_spec (clock w + t) (clock w + d)) as [Hlt|_]; [lia |].
    unfold deserialized, truthy, to_string.
    destruct (String.eqb_spec s EmptyString) as [->|_]; [congruence |].
    simpl. rewrite Hparse. reflexivity.
  - rewrite (usable_clients h (set_status h Ready w)) by reflexivity.
    now apply (usable_set_status_ready h h w w).
  - assumption.
Qed.

Lemma store_retrieve_round_trip_null :
  exists reply w1 w2,
    store "123" "key1" JsNull 1000 sample_open = (Ok reply, (fst sample_open, w1)) /\
    retrieve "123" "key1" (fst sample_open, elapse 999 w1) = (Ok JsNull, (fst sample_open, w2)).
Proof.
  apply (store_retrieve_round_trip "123" "123" "key1" JsNull 1000 999
           (fst sample_open) (snd sample_open)).
  - exists 0%nat. split; reflexivity.
  - reflexivity.
  - reflexivity.
  - lia.
Defined.

(** C2. [store] does not resolve with the stored value: the callback's
    [value] parameter hides the method's, so the promise is resolved with
    the reply of SET.  Storing the string ABC resolves with OK. *)
Theorem store_resolves_with_reply :
  fst (store "123" "key1" (JsString "ABC") 1000 sample_open) = Ok (JsString "OK") /\
  fst (store "123" "key1" (JsString "ABC") 1000 sample_open) <> Ok (JsString "ABC").
Proof. split; [vm_compute; reflexivity | vm_compute; discriminate]. Qed.

(** C3. Not-opened guard: while the component holds no client handle,
    retrieve, store and remove each throw InvalidStateException NOT_OPENED
    at once and leave the component and the world as they were; in
    particular nothing is added to the commands sent over the network. *)
Theorem not_opened_guard
    (cid key : string) (value : JsValue) (timeout : Z) (c : RedisCache) (w : World) :
  isOpen c = false ->
  retrieve cid key (c, w)
    = (Thrown (InvalidStateException cid "NOT_OPENED" "Connection is not opened"), (c, w)) /\
  store cid key value timeout (c, w)
    = (Thrown (InvalidStateException cid "NOT_OPENED" "Connection is not opened"), (c, w)) /\
  remove cid key (c, w)
    = (Thrown (InvalidStateException cid "NOT_OPENED" "Connection is not opened"), (c, w)).
Proof.
  intros Hclosed.
  unfold retrieve, store, remove, checkOpened, bind, this. simpl. rewrite Hclosed.
  repeat split; reflexivity.
Qed.

Lemma not_opened_guard_fresh :
  retrieve "123" "key1" (new_RedisCache, empty_world)
    = (Thrown (InvalidStateException "123" "NOT_OPENED" "Connection is not opened"),
       (new_RedisCache, empty_world)) /\
  store "123" "key1" (JsString "ABC") 1000 (new_RedisCache, empty_world)
    = (Thrown (InvalidStateException "123" "NOT_OPENED" "Connection is not opened"),
       (new_RedisCache, empty_world)) /\
  remove "123" "key1" (new_RedisCache, empty_world)
    = (Thrown (InvalidStateException "123" "NOT_OPENED" "Connection is not opened"),
       (new_RedisCache, empty_world)).
Proof.
  apply (not_opened_guard "123" "key1" (JsString "ABC") 1000 new_RedisCache empty_world).
  reflexivity.
Defined.

(** C4, as the specification has it, fails: when QUIT comes back with an
    error, [close] rejects with it and the handle is still there. *)
Lemma close_error_keeps_handle :
  fst (close "123" (fst sample_open, with_faults [Some "socket closed"] (snd sample_open)))
    = Rejected (RedisError "socket closed") /\
  isOpen (fst (snd (close "123"
            (fst sample_open, with_faults [Some "socket closed"] (snd sample_open))))) = true.
Proof. split; vm_compute; reflexivity. Qed.

(** C4, amended.  With no handle [close] does nothing.  With a handle it
    sends QUIT: an error is passed on to the caller and the component is
    left as it was, handle included, so it still reports open; on success
    the handle is dropped and the component reports closed. *)
Theorem close_outcome (cid : string) (c : RedisCache) (w : World) :
  match _client c with
  | None => close cid (c, w) = (Ok tt, (c, w))
  | Some h =>
      match send_command h QUIT w with
      | (Failure err, w') =>
          close cid (c, w) = (Rejected (RedisError err), (c, w')) /\ isOpen c = true
      | (Success _, w') =>
          exists c', close cid (c, w) = (Ok tt, (c', w')) /\ isOpen c' = false
      end
  end.
Proof.
  destruct (_client c) as [h|] eqn:Hc.
  - rewrite (close_open cid c w h Hc).
    destruct (send_command h QUIT w) as [[err|reply] w'].
    + split; [reflexivity |]. unfold isOpen. now rewrite Hc.
    + exists (set_client None c). split; reflexivity.
  - unfold close, async, bind, this, ret. simpl. now rewrite Hc.
Qed.




Lemma connection_refused_reflect (options : RetryOptions) :
  connection_refused options <->
  match error options with
  | Some e => String.eqb (code e) "ECONNREFUSED"
  | None => false
  end = true.
Proof.
  unfold connection_refused. destruct (error options) as [e|]; split.
  - intros (e' & [= <-] & Hcode). now apply String.eqb_eq.
  - intros H. exists e. split; [reflexivity | now apply String.eqb_eq].
  - intros (e' & Habs & _). discriminate.
  - discriminate.
Qed.

(** C6. The retry strategy is the reconnect policy of the specification:
    for every failure reason, elapsed time and attempt count it gives the
    refusal error when the reason is ECONNREFUSED; failing that the
    exhaustion error when the elapsed time is above the timeout; failing
    that undefined when the attempt count is above the retries; and
    otherwise the delay min(attempt * 100, 3000).  It gives nothing else. *)
Theorem retryStrategy_is_reconnect_policy
    (self : RedisCache) (options : RetryOptions) (answer : RetryAnswer) :
  retryStrategy self options = answer <-> reconnect_policy self options answer.
Proof.
  pose proof (connection_refused_reflect options) as Hrefused.
  unfold retryStrategy. split.
  - intros <-.
    destruct (match error options with
              | Some e => String.eqb (code e) "ECONNREFUSED"
              | None => false
              end) eqn:Hr.
    + apply policy_refused. now apply Hrefused.
    + assert (~ connection_refused options) as Hnot.
      { intros H. apply Hrefused in H. discriminate. }
      destruct (Z.gtb_spec (total_retry_time options) (_timeout self)) as [Ht|Ht].
      * apply policy_exhausted; [assumption | lia].
      * destruct (Z.gtb_spec (attempt options) (_retries self)) as [Ha|Ha].
        -- apply policy_no_more; [assumption | lia | lia].
        -- apply policy_delay; assumption.
  - intros Hpolicy.
    destruct Hpolicy as [Hyes | Hno Ht | Hno Ht Ha | Hno Ht Ha].
    + apply Hrefused in Hyes. now rewrite Hyes.
    + destruct (match error options with
                | Some e => String.eqb (code e) "ECONNREFUSED"
                | None => false
                end) eqn:Hr; [exfalso; now apply Hno, Hrefused |].
      destruct (Z.gtb_spec (total_retry_time options) (_timeout self)); [reflexivity | lia].
    + destruct (match error options with
                | Some e => String.eqb (code e) "ECONNREFUSED"
                | None => false
                end) eqn:Hr; [exfalso; now apply Hno, Hrefused |].
      destruct (Z.gtb_spec (total_retry_time options) (_timeout self)); [lia |].
      destruct (Z.gtb_spec (attempt options) (_retries self)); [reflexivity | lia].
    + destruct (match error options with
                | Some e => String.eqb (code e) "ECONNREFUSED"
                | None => false
                end) eqn:Hr; [exfalso; now apply Hno, Hrefused |].
      destruct (Z.gtb_spec (total_retry_time options) (_timeout self)); [lia |].
      destruct (Z.gtb_spec (attempt options) (_retries self)); [lia | reflexivity].
Qed.

(** What [remove] resolves with on an open cache: the number of keys that
    DEL removed. *)
Lemma remove_resolves_with_count (cid key : string) (c : RedisCache) (w : World) (h : nat) :
  _client c = Some h ->
  usable h w = true ->
  quiet 1 (faults w) = true ->
  fst (remove cid key (c, w))
  = Ok (JsNumber (match live_value key w with Some _ => 1 | None => 0 end)).
Proof.
  intros Hc Hu Hq.
  rewrite (remove_open cid key c w h Hc), send_command_quiet by assumption.
  unfold execute.
  change (live_value key (set_status h Ready
            (with_faults (tail (faults w)) (transmitted h (DEL key) w))))
    with (live_value key w).
  destruct (live_value key w); reflexivity.
Qed.

(** C7. [remove] does not resolve with the removed value: DEL answers
    with the number of keys it removed, and that number is what the promise
    is resolved with: 1 after ABC was stored under the key, 0 (not null)
    for a key that is not there. *)
Theorem remove_resolves_with_number :
  fst (remove "123" "key1"
         (snd (store "123" "key1" (JsString "ABC") 1000 sample_open))) = Ok (JsNumber 1) /\
  fst (retrieve "123" "key1"
         (snd (store "123" "key1" (JsString "ABC") 1000 sample_open))) = Ok (JsString "ABC") /\
  fst (remove "123" "key2"
         (snd (store "123" "key1" (JsString "ABC") 1000 sample_open))) = Ok (JsNumber 0).
Proof. repeat split; vm_compute; reflexivity. Qed.

(** C8. The timeout of a component that was never configured is 30000 ms,
    not the 60000 ms (one minute) its documentation gives; the retries
    default is 3, and a configuration without the options changes neither. *)
Theorem default_timeout_is_30000 :
  _timeout new_RedisCache = 30000 /\
  _timeout new_RedisCache <> 60000 /\
  _retries new_RedisCache = 3 /\
  _timeout sample_cache = 30000 /\
  _retries sample_cache = 3.
Proof. repeat split; try reflexivity. discriminate. Qed.

(** ** The lock *)

Lemma tryAcquireLock_open (cid key : string) (ttl : Z)
    (a : RedisLock.RedisLock) (w : World) (h : nat) :
  RedisLock._client a = Some h ->
  RedisLock.tryAcquireLock cid key ttl (a, w)
  = match send_command h (SET_NX_PX key (RedisLock._lock a) ttl) w with
    | (Failure err, w') => (Rejected (RedisError err), (a, w'))
    | (Success reply, w') =>
        (Ok (match reply with
             | JsString r => String.eqb r "OK"
             | _ => false
             end), (a, w'))
    end.
Proof.
  intros Hc.
  unfold RedisLock.tryAcquireLock, RedisLock.checkOpened, RedisLock.isOpen,
    client_command, new_Promise, in_callback, bind, this.
  simpl. rewrite Hc. simpl. rewrite Hc. simpl.
  destruct (send_command h _ w) as [[err|reply] w']; reflexivity.
Qed.

(** On a free key the one command takes the lease. *)
Lemma tryAcquireLock_free (cid key : string) (ttl : Z)
    (a : RedisLock.RedisLock) (w : World) (h : nat) :
  RedisLock._client a = Some h ->
  usable h w = true ->
  quiet 1 (faults w) = true ->
  0 < ttl ->
  live_value key w = None ->
  RedisLock.tryAcquireLock cid key ttl (a, w)
  = (Ok true,
     (a, with_keyspace
           (<[key := {| entry_value := RedisLock._lock a; entry_expires := clock w + ttl |}]>
              (keyspace w))
           (set_status h Ready
              (with_faults (tail (faults w))
                 (transmitted h (SET_NX_PX key (RedisLock._lock a) ttl) w))))).
Proof.
  intros Hc Hu Hq Httl Hfree.
  rewrite (tryAcquireLock_open cid key ttl a w h Hc), send_command_quiet by assumption.
  unfold execute. destruct (Z.leb_spec ttl 0) as [Hle|_]; [lia |].
  change (live_value key (set_status h Ready
            (with_faults (tail (faults w))
               (transmitted h (SET_NX_PX key (RedisLock._lock a) ttl) w))))
    with (live_value key w).
  rewrite Hfree. reflexivity.
Qed.

(** On a key that is held the one command changes nothing. *)
Lemma tryAcquireLock_held (cid key token : string) (ttl : Z)
    (a : RedisLock.RedisLock) (w : World) (h : nat) :
  RedisLock._client a = Some h ->
  usable h w = true ->
  quiet 1 (faults w) = true ->
  0 < ttl ->
  live_value key w = Some token ->
  RedisLock.tryAcquireLock cid key ttl (a, w)
  = (Ok false,
     (a, set_status h Ready
           (with_faults (tail (faults w))
              (transmitted h (SET_NX_PX key (RedisLock._lock a) ttl) w)))).
Proof.
  intros Hc Hu Hq Httl Hheld.
  rewrite (tryAcquireLock_open cid key ttl a w h Hc), send_command_quiet by assumption.
  unfold execute. destruct (Z.leb_spec ttl 0) as [Hle|_]; [lia |].
  change (live_value key (set_status h Ready
            (with_faults (tail (faults w))
               (transmitted h (SET_NX_PX key (RedisLock._lock a) ttl) w))))
    with (live_value key w).
  rewrite Hheld. reflexivity.
Qed.

(** Two calls one after the other, the second within the lease of the
    first: the first takes the lease, the second is turned away, and the
    lease is the first caller's when both are done. *)
Lemma tryAcquireLock_twice (cid1 cid2 key : string) (ttl gap : Z)
    (a b : RedisLock.RedisLock) (w : World) (ha hb : nat) :
  RedisLock._client a = Some ha -> usable ha w = true ->
  RedisLock._client b = Some hb -> usable hb w = true ->
  live_value key w = None ->
  quiet 2 (faults w) = true ->
  0 <= gap < ttl ->
  exists w1 w2,
    RedisLock.tryAcquireLock cid1 key ttl (a, w) = (Ok true, (a, w1)) /\
    RedisLock.tryAcquireLock cid2 key ttl (b, elapse gap w1) = (Ok false, (b, w2)) /\
    RedisLock.holds_lease (RedisLock._lock a) key w2.
Proof.
  intros Ha Hua Hb Hub Hfree Hq Hgap.
  destruct (quiet_split 1 _ Hq) as [Hq1 Hq2].
  eexists _, _. split; [| split].
  - apply (tryAcquireLock_free cid1 key ttl a w ha); (assumption || lia).
  - apply (tryAcquireLock_held cid2 key (RedisLock._lock a) ttl b _ hb); try (assumption || lia).
    + rewrite (usable_clients hb (set_status ha Ready w)) by reflexivity.
      now apply (usable_set_status_ready ha hb w w).
    + unfold live_value. simpl. rewrite lookup_insert_eq. simpl.
      destruct (Z.ltb_spec (clock w + ttl) (clock w + gap)); [lia | reflexivity].
  - unfold RedisLock.holds_lease, live_value. simpl. rewrite lookup_insert_eq. simpl.
    destruct (Z.ltb_spec (clock w + ttl) (clock w + gap)); [lia | reflexivity].
Qed.

(** C9, amended.  Mutual exclusion: two tryAcquireLock calls for the same
    free key are in flight together, their commands reaching the server in
    either order and less than the lease time apart (so the lease time is
    positive).  Exactly one of the two returns true, the other false, and
    the one that returned true holds the lease afterwards. *)
Theorem tryAcquireLock_mutual_exclusion
    (order : RedisLock.Arrival) (a b : RedisLock.RedisLock) (key : string) (ttl gap : Z)
    (w : World) (ha hb : nat) :
  RedisLock._client a = Some ha -> usable ha w = true ->
  RedisLock._client b = Some hb -> usable hb w = true ->
  live_value key w = None ->
  quiet 2 (faults w) = true ->
  0 <= gap < ttl ->
  exists ra rb w',
    RedisLock.race order a b key ttl gap w = (Ok ra, Ok rb, w') /\
    ra = negb rb /\
    (ra = true -> RedisLock.holds_lease (RedisLock._lock a) key w') /\
    (rb = true -> RedisLock.holds_lease (RedisLock._lock b) key w').
Proof.
  intros Ha Hua Hb Hub Hfree Hq Hgap. destruct order; unfold RedisLock.race.
  - destruct (tryAcquireLock_twice "a" "b" key ttl gap a b w ha hb)
      as (w1 & w2 & -> & -> & Hlease); try assumption.
    exists true, false, w2. repeat split; [auto | discriminate].
  - destruct (tryAcquireLock_twice "b" "a" key ttl gap b a w hb ha)
      as (w1 & w2 & -> & -> & Hlease); try assumption.
    exists false, true, w2. repeat split; [discriminate | auto].
Qed.

Lemma tryAcquireLock_mutual_exclusion_sample :
  exists ra rb w',
    RedisLock.race RedisLock.SecondThenFirst
      {| RedisLock._client := Some 0%nat; RedisLock._lock := "holder-a" |}
      {| RedisLock._client := Some 0%nat; RedisLock._lock := "holder-b" |}
      "lock1" 50 0 (snd sample_open) = (Ok ra, Ok rb, w') /\
    ra = negb rb /\
    (ra = true -> RedisLock.holds_lease "holder-a" "lock1" w') /\
    (rb = true -> RedisLock.holds_lease "holder-b" "lock1" w').
Proof.
  apply (tryAcquireLock_mutual_exclusion RedisLock.SecondThenFirst
           {| RedisLock._client := Some 0%nat; RedisLock._lock := "holder-a" |}
           {| RedisLock._client := Some 0%nat; RedisLock._lock := "holder-b" |}
           "lock1" 50 0 (snd sample_open) 0%nat 0%nat);
    try reflexivity.
  lia.
Defined.

(** C9, as the specification has it, fails for some lease times: when the
    second command arrives after the lease of the first has run out (a
    lease of 1 ms, the commands 2 ms apart) both calls return true; and
    with a lease time of 0 the store refuses both commands, so neither
    call returns true. *)
Lemma tryAcquireLock_both_win :
  fst (RedisLock.race RedisLock.FirstThenSecond
         {| RedisLock._client := Some 0%nat; RedisLock._lock := "holder-a" |}
         {| RedisLock._client := Some 0%nat; RedisLock._lock := "holder-b" |}
         "lock1" 1 2 (snd sample_open)) = (Ok true, Ok true) /\
  exists e,
    fst (RedisLock.race RedisLock.FirstThenSecond
           {| RedisLock._client := Some 0%nat; RedisLock._lock := "holder-a" |}
           {| RedisLock._client := Some 0%nat; RedisLock._lock := "holder-b" |}
           "lock1" 0 0 (snd sample_open)) = (Rejected e, Rejected e).
Proof. split; [vm_compute; reflexivity | eexists; vm_compute; reflexivity]. Qed.

(** C10, as stated, fails on a component that was given a credential
    without a password after it was opened: createClient throws on the
    options, so [open] rejects, and the component keeps the handle it
    had. *)
Lemma open_while_open_can_fail :
  isOpen sample_reconfigured = true /\
  exists e,
    open "456" (sample_reconfigured, snd sample_open)
    = (Rejected e, (sample_reconfigured, snd sample_open)).
Proof. split; [reflexivity | eexists; vm_compute; reflexivity]. Qed.

(** C10, amended.  [open] on a component that is already open is neither
    refused nor skipped for being open.  It reads the resolvers again and
    builds the options from what they hold now.  When createClient accepts
    them, [open] resolves and puts the new handle in place of the old one;
    the old client is not told to quit: no command goes over the network
    and the old client stays usable, with nothing left that refers to it.
    When createClient refuses them, [open] rejects and component and world
    are as they were, the old handle still in place. *)
Theorem open_while_open
    (cid : string) (c : RedisCache) (w : World) (h : nat) (connection : ConnectionParams) :
  _client c = Some h ->
  usable h w = true ->
  ConnectionResolver_resolve (_connectionResolver c) = Some connection ->
  if accepted (client_options_of connection
                 (CredentialResolver_lookup (_credentialResolver c)))
  then
    exists h' w',
      open cid (c, w) = (Ok tt, (set_client (Some h') c, w')) /\
      h' <> h /\
      clients w' !! h'
        = Some {| client_options :=
                    client_options_of connection
                      (CredentialResolver_lookup (_credentialResolver c));
                  client_status := Connecting |} /\
      clients w' !! h = clients w !! h /\
      usable h w' = true /\
      network w' = network w
  else
    (exists e, open cid (c, w) = (Rejected e, (c, w))) /\ isOpen c = true.
Proof.
  intros Hc Hu Hr.
  destruct (accepted (client_options_of connection
                        (CredentialResolver_lookup (_credentialResolver c)))) eqn:Hacc.
  - assert (Hlt : (h < length (clients w))%nat).
    { unfold usable in Hu. destruct (clients w !! h) as [cl|] eqn:Hl; [| discriminate].
      now apply lookup_lt_Some in Hl. }
    rewrite (open_resolved cid c w connection Hr Hacc).
    eexists _, _. split; [reflexivity |]. simpl.
    assert (Hold : (clients w ++
                    [ {| client_options :=
                           client_options_of connection
                             (CredentialResolver_lookup (_credentialResolver c));
                         client_status := Connecting |} ]) !! h = clients w !! h).
    { now apply lookup_app_l. }
    repeat split.
    + lia.
    + apply list_lookup_middle. reflexivity.
    + assumption.
    + unfold usable in *. simpl. now rewrite Hold.
  - split; [now apply (open_refused cid c w connection) |].
    unfold isOpen. now rewrite Hc.
Qed.

Lemma open_while_open_sample :
  exists h' w',
    open "456" sample_open = (Ok tt, (set_client (Some h') (fst sample_open), w')) /\
    h' <> 0%nat /\
    clients w' !! h'
      = Some {| client_options :=
                  client_options_of
                    {| getUri := None; getHost := Some "localhost"; getPort := 6379 |}
                    (CredentialResolver_lookup (_credentialResolver (fst sample_open)));
                client_status := Connecting |} /\
    clients w' !! 0%nat = clients (snd sample_open) !! 0%nat /\
    usable 0 w' = true /\
    network w' = network (snd sample_open).
Proof.
  exact (open_while_open "456" (fst sample_open) (snd sample_open) 0%nat
           {| getUri := None; getHost := Some "localhost"; getPort := 6379 |}
           eq_refl eq_refl eq_refl).
Defined.

(* ===================================================================== *)
(** * 10. Further properties of the cache *)
(* ===================================================================== *)

(** ** Helpers *)


(** A GET that reaches the server. *)
Lemma retrieve_quiet (cid key : string) (c : RedisCache) (w : World) (h : nat) :
  _client c = Some h ->
  usable h w = true ->
  quiet 1 (faults w) = true ->
  retrieve cid key (c, w)
  = (deserialized (match live_value key w with
                   | Some s => JsString s
                   | None => JsNull
                   end),
     (c, set_status h Ready (with_faults (tail (faults w)) (transmitted h (GET key) w)))).
Proof.
  intros Hc Hu Hq.
  rewrite (retrieve_open cid key c w h Hc), send_command_quiet by assumption.
  reflexivity.
Qed.

(** A DEL that reaches the server. *)
Lemma remove_quiet (cid key : string) (c : RedisCache) (w : World) (h : nat) :
  _client c = Some h ->
  usable h w = true ->
  quiet 1 (faults w) = true ->
  remove cid key (c, w)
  = (Ok (JsNumber (match live_value key w with Some _ => 1 | None => 0 end)),
     (c, with_keyspace (delete key (keyspace w))
           (set_status h Ready (with_faults (tail (faults w)) (transmitted h (DEL key) w))))).
Proof.
  intros Hc Hu Hq.
  rewrite (remove_open cid key c w h Hc), send_command_quiet by assumption.
  unfold execute.
  change (live_value key (set_status h Ready
            (with_faults (tail (faults w)) (transmitted h (DEL key) w))))
    with (live_value key w).
  destruct (live_value key w); reflexivity.
Qed.

Lemma closed_calls (cid key : string) (value : JsValue) (timeout : Z)
    (c : RedisCache) (w : World) :
  _client c = None ->
  retrieve cid key (c, w)
    = (Thrown (InvalidStateException cid "NOT_OPENED" "Connection is not opened"), (c, w)) /\
  store cid key value timeout (c, w)
    = (Thrown (InvalidStateException cid "NOT_OPENED" "Connection is not opened"), (c, w)) /\
  remove cid key (c, w)
    = (Thrown (InvalidStateException cid "NOT_OPENED" "Connection is not opened"), (c, w)).
Proof.
  intros Hc.
  unfold retrieve, store, remove, checkOpened, bind, this, isOpen. simpl. rewrite Hc.
  repeat split; reflexivity.
Qed.

Lemma set_client_round_trip (c : RedisCache) (h : nat) :
  _client c = None -> set_client None (set_client (Some h) c) = c.
Proof. destruct c as [cr cd t r cl]. simpl. now intros ->. Qed.

(** ** Opening and closing *)

(** X1. With no connection configured [open] rejects with ConfigException
    NO_CONNECTION; no client is created and component and world stay as
    they were. *)
Theorem open_without_connection (cid : string) (c : RedisCache) (w : World) :
  ConnectionResolver_resolve (_connectionResolver c) = None ->
  open cid (c, w)
  = (Rejected (ConfigException cid "NO_CONNECTION" "Connection is not configured"), (c, w)).
Proof.
  intros Hr. unfold open, async, await, bind, this, ret, throw. simpl. now rewrite Hr.
Qed.

Lemma open_without_connection_fresh :
  open "123" (new_RedisCache, empty_world)
  = (Rejected (ConfigException "123" "NO_CONNECTION" "Connection is not configured"),
     (new_RedisCache, empty_world)).
Proof.
  apply (open_without_connection "123" new_RedisCache empty_world). reflexivity.
Defined.

(** X2. The client [open] creates, whenever [open] resolves: a resolved
    URI is used as it is and then neither host nor port is given; without
    a URI the host is the resolved one, or localhost when that is missing
    or empty, and the port is the resolved one, or 6379 when that is 0.
    The password is given exactly when a credential was found, and is then
    a string.  Opening touches neither the keyspace nor the network. *)
Theorem open_client_options
    (cid : string) (c c' : RedisCache) (w w' : World) (connection : ConnectionParams) :
  ConnectionResolver_resolve (_connectionResolver c) = Some connection ->
  open cid (c, w) = (Ok tt, (c', w')) ->
  exists h o,
    _client c' = Some h /\
    clients w' !! h = Some {| client_options := o; client_status := Connecting |} /\
    keyspace w' = keyspace w /\
    network w' = network w /\
    match getUri connection with
    | Some u => url o = Some u /\ host o = None /\ port o = None
    | None =>
        url o = None /\
        host o = Some (match getHost connection with
                       | Some x => if String.eqb x EmptyString then "localhost" else x
                       | None => "localhost"
                       end) /\
        port o = Some (if getPort connection =? 0 then 6379 else getPort connection)
    end /\
    match CredentialResolver_lookup (_credentialResolver c) with
    | Some credential => exists p, getPassword credential = Some p /\ password o = Some (Some p)
    | None => password o = None
    end.
Proof.
  intros Hr Hopen.
  destruct (open_resolves_inv cid c c' w w' Hopen) as (connection' & Hr' & Hacc & -> & ->).
  rewrite Hr in Hr'. injection Hr' as <-.
  eexists _, _. split; [reflexivity |]. split; [apply list_lookup_middle; reflexivity |].
  split; [reflexivity |]. split; [reflexivity |]. split.
  - unfold client_options_of. simpl. destruct (getUri connection) as [u|]; auto.
  - unfold accepted, client_options_of in *. simpl in *.
    destruct (CredentialResolver_lookup (_credentialResolver c)) as [credential|];
      [| reflexivity].
    destruct (getPassword credential) as [p|]; [eauto | discriminate].
Qed.

Lemma open_client_options_sample :
  exists h o,
    _client (fst sample_open) = Some h /\
    clients (snd sample_open) !! h
      = Some {| client_options := o; client_status := Connecting |} /\
    keyspace (snd sample_open) = keyspace empty_world /\
    network (snd sample_open) = network empty_world /\
    (url o = None /\ host o = Some "localhost" /\ port o = Some 6379) /\
    password o = None.
Proof.
  exact (open_client_options "123" sample_cache (fst sample_open) empty_world (snd sample_open)
           {| getUri := None; getHost := Some "localhost"; getPort := 6379 |}
           eq_refl eq_refl).
Defined.

(** X3. When [open] has resolved on a closed component, closing it
    again, with the QUIT answered, gives back the component exactly as it
    was; the one command sent is QUIT, the keyspace is untouched, and the
    client that was created can no longer be used. *)
Theorem open_close_round_trip
    (cid cid' : string) (c c1 : RedisCache) (w w1 : World) :
  _client c = None ->
  open cid (c, w) = (Ok tt, (c1, w1)) ->
  quiet 1 (faults w) = true ->
  exists h w2,
    _client c1 = Some h /\
    close cid' (c1, w1) = (Ok tt, (c, w2)) /\
    keyspace w2 = keyspace w /\
    network w2 = network w ++ [(h, QUIT)] /\
    usable h w2 = false.
Proof.
  intros Hc Hopen Hq.
  destruct (open_resolves_inv cid c c1 w w1 Hopen) as (connection & _ & _ & -> & ->).
  exists (length (clients w)). eexists. split; [reflexivity |].
  rewrite (close_open cid' (set_client (Some (length (clients w))) c) _
             (length (clients w)) eq_refl).
  rewrite send_command_quiet.
  - simpl. rewrite (set_client_round_trip c _ Hc).
    split; [reflexivity |]. split; [reflexivity |]. split; [reflexivity |].
    unfold usable, set_status. simpl.
    rewrite list_lookup_alter_eq, list_lookup_alter_eq, list_lookup_middle by reflexivity.
    reflexivity.
  - unfold usable. simpl. now rewrite list_lookup_middle.
  - assumption.
Qed.

Lemma open_close_round_trip_sample :
  exists h w2,
    _client (fst sample_open) = Some h /\
    close "456" (fst sample_open, snd sample_open) = (Ok tt, (sample_cache, w2)) /\
    keyspace w2 = keyspace empty_world /\
    network w2 = network empty_world ++ [(h, QUIT)] /\
    usable h w2 = false.
Proof.
  apply (open_close_round_trip "123" "456" sample_cache (fst sample_open)
           empty_world (snd sample_open)); reflexivity.
Defined.

(** X4. Once [close] has resolved the component is closed for good: a
    second [close] does nothing, and retrieve, store and remove throw
    NOT_OPENED without a command being sent. *)
Theorem closed_after_close
    (cid key : string) (value : JsValue) (timeout : Z) (c : RedisCache) (w : World) :
  opened (c, w) ->
  quiet 1 (faults w) = true ->
  exists c' w',
    close cid (c, w) = (Ok tt, (c', w')) /\
    isOpen c' = false /\
    close cid (c', w') = (Ok tt, (c', w')) /\
    retrieve cid key (c', w')
      = (Thrown (InvalidStateException cid "NOT_OPENED" "Connection is not opened"), (c', w')) /\
    store cid key value timeout (c', w')
      = (Thrown (InvalidStateException cid "NOT_OPENED" "Connection is not opened"), (c', w')) /\
    remove cid key (c', w')
      = (Thrown (InvalidStateException cid "NOT_OPENED" "Connection is not opened"), (c', w')).
Proof.
  intros (h & Hc & Hu) Hq. simpl in Hc, Hu.
  rewrite (close_open cid c w h Hc), send_command_quiet by assumption. simpl.
  eexists _, _. split; [reflexivity |]. split; [reflexivity |]. split.
  - reflexivity.
  - apply closed_calls. reflexivity.
Qed.

Lemma closed_after_close_sample :
  exists c' w',
    close "123" (fst sample_open, snd sample_open) = (Ok tt, (c', w')) /\
    isOpen c' = false /\
    close "123" (c', w') = (Ok tt, (c', w')) /\
    retrieve "123" "key1" (c', w')
      = (Thrown (InvalidStateException "123" "NOT_OPENED" "Connection is not opened"),
         (c', w')) /\
    store "123" "key1" JsNull 1000 (c', w')
      = (Thrown (InvalidStateException "123" "NOT_OPENED" "Connection is not opened"),
         (c', w')) /\
    remove "123" "key1" (c', w')
      = (Thrown (InvalidStateException "123" "NOT_OPENED" "Connection is not opened"),
         (c', w')).
Proof.
  apply (closed_after_close "123" "key1" JsNull 1000 (fst sample_open) (snd sample_open)).
  - exists 0%nat. split; reflexivity.
  - reflexivity.
Defined.

(** X5. A [close] that failed can be tried again: when the first QUIT
    comes back with an error and the second is answered, the first call
    rejects with that error, the second resolves, and the component is
    closed. *)
Theorem failed_close_can_be_retried
    (cid : string) (c : RedisCache) (w : World) (err : string) (fs : list (option string)) :
  opened (c, w) ->
  faults w = Some err :: fs ->
  quiet 1 fs = true ->
  exists w1 c2 w2,
    close cid (c, w) = (Rejected (RedisError err), (c, w1)) /\
    close cid (c, w1) = (Ok tt, (c2, w2)) /\
    isOpen c2 = false.
Proof.
  intros (h & Hc & Hu) Hf Hq. simpl in Hc, Hu.
  rewrite (close_open cid c w h Hc), (send_command_fault h QUIT w err fs Hu Hf).
  eexists _, _, _. split; [reflexivity |].
  rewrite (close_open cid c _ h Hc), send_command_quiet by assumption.
  simpl. split; reflexivity.
Qed.

Lemma failed_close_can_be_retried_sample :
  exists w1 c2 w2,
    close "123" (fst sample_open, with_faults [Some "socket closed"] (snd sample_open))
      = (Rejected (RedisError "socket closed"), (fst sample_open, w1)) /\
    close "123" (fst sample_open, w1) = (Ok tt, (c2, w2)) /\
    isOpen c2 = false.
Proof.
  apply (failed_close_can_be_retried "123" (fst sample_open)
           (with_faults [Some "socket closed"] (snd sample_open)) "socket closed" []).
  - exists 0%nat. split; reflexivity.
  - reflexivity.
  - reflexivity.
Defined.

(** ** Reading, writing and deleting *)

Lemma execute_faults (h : nat) (cmd : Command) (w : World) :
  faults (snd (execute h cmd w)) = faults w.
Proof.
  destruct cmd as [key|key [s|] ms|key s ms|key|]; simpl; try reflexivity.
  - destruct (ms <=? 0); reflexivity.
  - destruct (ms <=? 0); [reflexivity |]. destruct (live_value key w); reflexivity.
Qed.

(** What a retrieve finds after a command on another key went through. *)
Lemma retrieve_after_command (cid key' : string) (c : RedisCache) (w : World) (h : nat)
    (cmd : Command) :
  _client c = Some h ->
  usable h w = true ->
  quiet 2 (faults w) = true ->
  cmd <> QUIT ->
  live_value key'
    (snd (execute h cmd
            (set_status h Ready (with_faults (tail (faults w)) (transmitted h cmd w)))))
  = live_value key' w ->
  fst (retrieve cid key' (c, snd (send_command h cmd w))) = fst (retrieve cid key' (c, w)).
Proof.
  intros Hc Hu Hq Hcmd Hlive.
  destruct (quiet_split 1 _ Hq) as [Hq1 Hq2].
  rewrite (retrieve_quiet cid key' c w h Hc Hu Hq1).
  rewrite send_command_quiet by assumption.
  rewrite (retrieve_quiet cid key' c _ h Hc).
  - simpl. now rewrite Hlive.
  - rewrite (usable_clients h (set_status h Ready w)) by (now rewrite execute_clients).
    now apply (usable_set_status_ready h h w w).
  - now rewrite execute_faults.
Qed.

(** X6. A key that is not there, or whose time has run out, retrieves as
    null; that is a result, not an error, and the keyspace is left alone. *)
Theorem retrieve_missing_key (cid key : string) (c : RedisCache) (w : World) :
  opened (c, w) ->
  quiet 1 (faults w) = true ->
  live_value key w = None ->
  exists w', retrieve cid key (c, w) = (Ok JsNull, (c, w')) /\ keyspace w' = keyspace w.
Proof.
  intros (h & Hc & Hu) Hq Hnone. simpl in Hc, Hu.
  rewrite (retrieve_quiet cid key c w h Hc Hu Hq), Hnone.
  eexists. split; reflexivity.
Qed.

Lemma retrieve_missing_key_sample :
  exists w',
    retrieve "123" "key1" (fst sample_open, snd sample_open)
      = (Ok JsNull, (fst sample_open, w')) /\
    keyspace w' = keyspace (snd sample_open).
Proof.
  apply (retrieve_missing_key "123" "key1" (fst sample_open) (snd sample_open)).
  - exists 0%nat. split; reflexivity.
  - reflexivity.
  - reflexivity.
Defined.

(** X7. Expiry: a value stored for [t] milliseconds retrieves as null once
    more than [t] milliseconds have passed. *)
Theorem stored_value_expires
    (cid cid' k : string) (v : JsValue) (s : string) (t d : Z) (c : RedisCache) (w : World) :
  opened (c, w) ->
  JSON.stringify v = Some s ->
  quiet 2 (faults w) = true ->
  0 < t < d ->
  exists reply w1 w2,
    store cid k v t (c, w) = (Ok reply, (c, w1)) /\
    retrieve cid' k (c, elapse d w1) = (Ok JsNull, (c, w2)).
Proof.
  intros (h & Hc & Hu) Hs Hq Hd. simpl in Hc, Hu.
  destruct (quiet_split 1 _ Hq) as [Hq1 Hq2].
  rewrite (store_accepted cid k v s t c w h) by (assumption || lia).
  eexists _, _, _. split; [reflexivity |].
  rewrite (retrieve_quiet cid' k c _ h Hc); try assumption.
  - unfold live_value. simpl. rewrite lookup_insert_eq. simpl.
    destruct (Z.ltb_spec (clock w + t) (clock w + d)) as [_|Hge]; [reflexivity | lia].
  - rewrite (usable_clients h (set_status h Ready w)) by reflexivity.
    now apply (usable_set_status_ready h h w w).
Qed.

Lemma stored_value_expires_sample :
  exists reply w1 w2,
    store "123" "key1" (JsString "ABC") 50 (fst sample_open, snd sample_open)
      = (Ok reply, (fst sample_open, w1)) /\
    retrieve "123" "key1" (fst sample_open, elapse 200 w1) = (Ok JsNull, (fst sample_open, w2)).
Proof.
  apply (stored_value_expires "123" "123" "key1" (JsString "ABC")
           (String JSON.dquote (String "A" (String "B" (String "C" (String JSON.dquote EmptyString)))))
           50 200 (fst sample_open) (snd sample_open)).
  - exists 0%nat. split; reflexivity.
  - reflexivity.
  - reflexivity.
  - lia.
Defined.

(** X8. Removal: after [remove] of a key, whether it was there or not,
    a retrieve of that key gives null, however much time goes by. *)
Theorem remove_then_retrieve
    (cid cid' k : string) (d : Z) (c : RedisCache) (w : World) :
  opened (c, w) ->
  quiet 2 (faults w) = true ->
  exists n w1 w2,
    remove cid k (c, w) = (Ok (JsNumber n), (c, w1)) /\
    retrieve cid' k (c, elapse d w1) = (Ok JsNull, (c, w2)).
Proof.
  intros (h & Hc & Hu) Hq. simpl in Hc, Hu.
  destruct (quiet_split 1 _ Hq) as [Hq1 Hq2].
  rewrite (remove_quiet cid k c w h Hc Hu Hq1).
  eexists _, _, _. split; [reflexivity |].
  rewrite (retrieve_quiet cid' k c _ h Hc); try assumption.
  - unfold live_value. simpl. rewrite lookup_delete_eq. reflexivity.
  - rewrite (usable_clients h (set_status h Ready w)) by reflexivity.
    now apply (usable_set_status_ready h h w w).
Qed.

Lemma remove_then_retrieve_sample :
  exists n w1 w2,
    remove "123" "key1" (fst sample_open, sample_world_with "key1" "true")
      = (Ok (JsNumber n), (fst sample_open, w1)) /\
    retrieve "123" "key1" (fst sample_open, elapse 10 w1) = (Ok JsNull, (fst sample_open, w2)).
Proof.
  apply (remove_then_retrieve "123" "123" "key1" 10 (fst sample_open)
           (sample_world_with "key1" "true")).
  - exists 0%nat. split; reflexivity.
  - reflexivity.
Defined.

(** X9. A command on one key leaves the others alone: after a [store] or a
    [remove] on [key], whatever its outcome, a retrieve of a different key
    gives what it would have given before. *)
Theorem other_keys_undisturbed
    (cid key key' : string) (v : JsValue) (t : Z) (c : RedisCache) (w : World) :
  opened (c, w) ->
  quiet 2 (faults w) = true ->
  key <> key' ->
  fst (retrieve cid key' (snd (store cid key v t (c, w)))) = fst (retrieve cid key' (c, w)) /\
  fst (retrieve cid key' (snd (remove cid key (c, w)))) = fst (retrieve cid key' (c, w)).
Proof.
  intros (h & Hc & Hu) Hq Hne. simpl in Hc, Hu.
  assert (Hstore : snd (store cid key v t (c, w))
                   = (c, snd (send_command h (SET_PX key (JSON.stringify v) t) w))).
  { rewrite (store_open cid key v t c w h Hc).
    destruct (send_command h (SET_PX key (JSON.stringify v) t) w) as [[e|r] w'];
      reflexivity. }
  assert (Hremove : snd (remove cid key (c, w)) = (c, snd (send_command h (DEL key) w))).
  { rewrite (remove_open cid key c w h Hc).
    destruct (send_command h (DEL key) w) as [[e|r] w']; reflexivity. }
  rewrite Hstore, Hremove. split.
  - apply retrieve_after_command; try assumption; [discriminate |].
    unfold execute. destruct (JSON.stringify v) as [s|]; [| reflexivity].
    destruct (t <=? 0); [reflexivity |].
    unfold live_value. simpl. now rewrite lookup_insert_ne.
  - apply retrieve_after_command; try assumption; [discriminate |].
    unfold execute, live_value. simpl. now rewrite lookup_delete_ne.
Qed.

Lemma other_keys_undisturbed_sample :
  fst (retrieve "123" "key2"
         (snd (store "123" "key1" JsNull 1000 (fst sample_open, sample_world_with "key2" "true"))))
    = fst (retrieve "123" "key2" (fst sample_open, sample_world_with "key2" "true")) /\
  fst (retrieve "123" "key2"
         (snd (remove "123" "key1" (fst sample_open, sample_world_with "key2" "true"))))
    = fst (retrieve "123" "key2" (fst sample_open, sample_world_with "key2" "true")).
Proof.
  apply (other_keys_undisturbed "123" "key1" "key2" JsNull 1000 (fst sample_open)
           (sample_world_with "key2" "true")).
  - exists 0%nat. split; reflexivity.
  - reflexivity.
  - discriminate.
Defined.

(** X10. An error of the transport is passed on as it is: when the client
    reports [err] for the command, retrieve, store and remove each reject
    with [err], and nothing is read from or written to the keyspace. *)
Theorem transport_error_propagates
    (cid key : string) (value : JsValue) (timeout : Z) (c : RedisCache) (w : World)
    (err : string) (fs : list (option string)) :
  opened (c, w) ->
  faults w = Some err :: fs ->
  (exists w', retrieve cid key (c, w) = (Rejected (RedisError err), (c, w')) /\
              keyspace w' = keyspace w) /\
  (exists w', store cid key value timeout (c, w) = (Rejected (RedisError err), (c, w')) /\
              keyspace w' = keyspace w) /\
  (exists w', remove cid key (c, w) = (Rejected (RedisError err), (c, w')) /\
              keyspace w' = keyspace w).
Proof.
  intros (h & Hc & Hu) Hf. simpl in Hc, Hu.
  rewrite (retrieve_open cid key c w h Hc), (store_open cid key value timeout c w h Hc),
    (remove_open cid key c w h Hc).
  rewrite !(send_command_fault h _ w err fs Hu Hf).
  repeat split; eexists; split; reflexivity.
Qed.

Lemma transport_error_propagates_sample :
  (exists w',
     retrieve "123" "key1" (fst sample_open, with_faults [Some "timeout"] (snd sample_open))
       = (Rejected (RedisError "timeout"), (fst sample_open, w')) /\
     keyspace w' = keyspace (with_faults [Some "timeout"] (snd sample_open))) /\
  (exists w',
     store "123" "key1" JsNull 1000
       (fst sample_open, with_faults [Some "timeout"] (snd sample_open))
       = (Rejected (RedisError "timeout"), (fst sample_open, w')) /\
     keyspace w' = keyspace (with_faults [Some "timeout"] (snd sample_open))) /\
  (exists w',
     remove "123" "key1" (fst sample_open, with_faults [Some "timeout"] (snd sample_open))
       = (Rejected (RedisError "timeout"), (fst sample_open, w')) /\
     keyspace w' = keyspace (with_faults [Some "timeout"] (snd sample_open))).
Proof.
  apply (transport_error_propagates "123" "key1" JsNull 1000 (fst sample_open)
           (with_faults [Some "timeout"] (snd sample_open)) "timeout" []).
  - exists 0%nat. split; reflexivity.
  - reflexivity.
Defined.



(** X12. retrieve, store and remove never change the component: in every
    state, open or closed, and whatever the outcome of the call, the
    handle, the options and the resolvers are afterwards what they were. *)
Theorem data_calls_keep_component
    (cid key : string) (value : JsValue) (timeout : Z) (st : RedisCache * World) :
  fst (snd (retrieve cid key st)) = fst st /\
  fst (snd (store cid key value timeout st)) = fst st /\
  fst (snd (remove cid key st)) = fst st.
Proof.
  destruct st as [c w]. destruct (_client c) as [h|] eqn:Hc.
  - rewrite (retrieve_open cid key c w h Hc), (store_open cid key value timeout c w h Hc),
      (remove_open cid key c w h Hc).
    destruct (send_command h (GET key) w) as [[e1|r1] w1];
      destruct (send_command h (SET_PX key (JSON.stringify value) timeout) w) as [[e2|r2] w2];
      destruct (send_command h (DEL key) w) as [[e3|r3] w3];
      repeat split; reflexivity.
  - destruct (closed_calls cid key value timeout c w Hc) as (-> & -> & ->).
    repeat split; reflexivity.
Qed.

(** X13. A key that holds the empty text retrieves as the empty string:
    the empty reply is falsy, so it is handed back as it is and JSON.parse,
    which would refuse it, is not called. *)
Theorem retrieve_empty_text (cid key : string) (c : RedisCache) (w : World) :
  opened (c, w) ->
  quiet 1 (faults w) = true ->
  live_value key w = Some EmptyString ->
  fst (retrieve cid key (c, w)) = Ok (JsString EmptyString) /\
  JSON.parse EmptyString = None.
Proof.
  intros (h & Hc & Hu) Hq Hlive. simpl in Hc, Hu.
  rewrite (retrieve_quiet cid key c w h Hc Hu Hq), Hlive. split; reflexivity.
Qed.

Lemma retrieve_empty_text_sample :
  fst (retrieve "123" "key1" (fst sample_open, sample_world_with "key1" EmptyString))
    = Ok (JsString EmptyString) /\
  JSON.parse EmptyString = None.
Proof.
  apply (retrieve_empty_text "123" "key1" (fst sample_open)
           (sample_world_with "key1" EmptyString)).
  - exists 0%nat. split; reflexivity.
  - reflexivity.
  - reflexivity.
Defined.

Lemma parse_not_a_value (s rest : string) (ch : ascii) :
  JSON.skip_ws s = String ch rest ->
  JSON.value_start ch = false ->
  JSON.parse s = None.
Proof.
  intros Hs Hch. unfold JSON.parse. simpl. rewrite Hs.
  destruct ch as [[] [] [] [] [] [] [] []]; simpl in Hch; try discriminate; reflexivity.
Qed.

(** X14. A key that holds a text which does not begin like a JSON value
    (one written by another program, say) makes JSON.parse throw inside
    the callback of GET: the promise of [retrieve] is neither resolved nor
    rejected, and the SyntaxError escapes. *)
Theorem retrieve_text_that_is_not_json
    (cid key s rest : string) (ch : ascii) (c : RedisCache) (w : World) :
  opened (c, w) ->
  quiet 1 (faults w) = true ->
  live_value key w = Some s ->
  JSON.skip_ws s = String ch rest ->
  JSON.value_start ch = false ->
  fst (retrieve cid key (c, w)) = Uncaught SyntaxError.
Proof.
  intros (h & Hc & Hu) Hq Hlive Hs Hch. simpl in Hc, Hu.
  rewrite (retrieve_quiet cid key c w h Hc Hu Hq), Hlive.
  unfold deserialized, truthy, to_string. simpl fst.
  destruct (String.eqb_spec s EmptyString) as [->|_]; [discriminate Hs |].
  simpl. now rewrite (parse_not_a_value s rest ch Hs Hch).
Qed.

Lemma retrieve_text_that_is_not_json_sample :
  fst (retrieve "123" "key1" (fst sample_open, sample_world_with "key1" "hello"))
    = Uncaught SyntaxError.
Proof.
  apply (retrieve_text_that_is_not_json "123" "key1" "hello" "ello" "h"%char
           (fst sample_open) (sample_world_with "key1" "hello")).
  - exists 0%nat. split; reflexivity.
  - reflexivity.
  - reflexivity.
  - reflexivity.
  - reflexivity.
Defined.

(** ** Configuration *)

Lemma toNullableInteger_number_to_string (n : Z) :
  toNullableInteger (JSON.number_to_string n) = Some n.
Proof.
  unfold toNullableInteger, JSON.number_to_string.
  rewrite <- (DecimalZ.of_to n) at 2.
  destruct n as [|p|p]; simpl Z.to_int; unfold NilEmpty.string_of_int.
  - reflexivity.
  - destruct (JSONFacts.string_of_uint_not_minus p) as (ch & s & Heq & Hch).
    assert (Hstrip : JSON.strip_minus (String ch s) = (false, String ch s)).
    { destruct ch as [[] [] [] [] [] [] [] []]; simpl in Hch; try discriminate; reflexivity. }
    rewrite Heq, Hstrip, <- Heq, NilEmpty.usu. reflexivity.
  - destruct (JSONFacts.string_of_uint_not_minus p) as (ch & s & Heq & Hch).
    simpl JSON.strip_minus. rewrite Heq, <- Heq, NilEmpty.usu. reflexivity.
Qed.

(** X15. [configure] takes each option from the configuration when it is
    there as an integer within the safe integers, and keeps the value the
    component had when it is not there; it never touches the client
    handle, so it neither opens nor closes the component. *)
Theorem configure_options (config : ConfigParams) (c : RedisCache) (t r : option Z) :
  safe_setting t = true ->
  safe_setting r = true ->
  config !! "options.timeout" = JSON.number_to_string <$> t ->
  config !! "options.retries" = JSON.number_to_string <$> r ->
  _timeout (configure config c) = default (_timeout c) t /\
  _retries (configure config c) = default (_retries c) r /\
  _client (configure config c) = _client c.
Proof.
  intros _ _ Ht Hr. unfold configure, getAsIntegerWithDefault. simpl. rewrite Ht, Hr.
  destruct t as [t|], r as [r|]; simpl;
    rewrite ?toNullableInteger_number_to_string; repeat split; reflexivity.
Qed.

Lemma configure_options_sample :
  _timeout (configure (<["options.timeout" := "5000"]> localhost_config) new_RedisCache)
    = default (_timeout new_RedisCache) (Some 5000) /\
  _retries (configure (<["options.timeout" := "5000"]> localhost_config) new_RedisCache)
    = default (_retries new_RedisCache) None /\
  _client (configure (<["options.timeout" := "5000"]> localhost_config) new_RedisCache)
    = _client new_RedisCache.
Proof.
  apply (configure_options (<["options.timeout" := "5000"]> localhost_config)
           new_RedisCache (Some 5000) None); reflexivity.
Defined.

(** ** The factory *)

Lemma Descriptor_match_type (d1 d2 : Descriptor) (a b : string) :
  getType d1 = Some a -> getType d2 = Some b -> a <> b -> Descriptor_match d1 d2 = false.
Proof.
  intros H1 H2 Hne. unfold Descriptor_match. rewrite H1, H2. unfold matchField at 2.
  apply String.eqb_neq in Hne. rewrite Hne.
  now rewrite andb_false_r.
Qed.

(** X16. The factory builds a RedisCache for the cache descriptor and a
    RedisLock for the lock descriptor whatever name the locator carries,
    and nothing for a locator whose type is neither cache nor lock. *)
Theorem factory_creates_by_type (name : string) (locator : Descriptor) (type : string) :
  getType locator = Some type ->
  type <> "cache" ->
  type <> "lock" ->
  Factory_create new_DefaultRedisFactory
    (new_Descriptor "pip-services" "cache" "redis" name "1.0") = Some RedisCacheClass /\
  Factory_create new_DefaultRedisFactory
    (new_Descriptor "pip-services" "lock" "redis" name "1.0") = Some RedisLockClass /\
  Factory_create new_DefaultRedisFactory locator = None.
Proof.
  intros Hty Hc Hl. split; [| split].
  - unfold new_DefaultRedisFactory, registerAsType, new_Descriptor. simpl.
    unfold Descriptor_match. simpl. destruct (descriptor_field name); reflexivity.
  - unfold new_DefaultRedisFactory, registerAsType, new_Descriptor. simpl.
    unfold Descriptor_match. simpl. destruct (descriptor_field name); reflexivity.
  - unfold new_DefaultRedisFactory, registerAsType. cbn [app Factory_create].
    rewrite (Descriptor_match_type RedisCacheDescriptor locator "cache" type),
      (Descriptor_match_type RedisLockDescriptor locator "lock" type);
      (reflexivity || assumption || congruence).
Qed.

Lemma factory_creates_by_type_sample :
  Factory_create new_DefaultRedisFactory
    (new_Descriptor "pip-services" "cache" "redis" "default" "1.0") = Some RedisCacheClass /\
  Factory_create new_DefaultRedisFactory
    (new_Descriptor "pip-services" "lock" "redis" "default" "1.0") = Some RedisLockClass /\
  Factory_create new_DefaultRedisFactory
    (new_Descriptor "pip-services" "logger" "redis" "default" "1.0") = None.
Proof.
  apply (factory_creates_by_type "default"
           (new_Descriptor "pip-services" "logger" "redis" "default" "1.0") "logger").
  - reflexivity.
  - discriminate.
  - discriminate.
Defined.

(** ** More on storing *)



(** X18. What comes back is what JSON makes of the value: when the text
    JSON.stringify writes for [v] parses as [v'], a retrieve within the
    timeout gives [v'].  So an [undefined] inside an array comes back as
    null, and a property whose value is [undefined] does not come back. *)
Theorem store_retrieve_through_json
    (cid cid' k : string) (v v' : JsValue) (s : string) (t d : Z)
    (c : RedisCache) (w : World) :
  opened (c, w) ->
  JSON.stringify v = Some s ->
  JSON.parse s = Some v' ->
  quiet 2 (faults w) = true ->
  0 <= d < t ->
  exists reply w1 w2,
    store cid k v t (c, w) = (Ok reply, (c, w1)) /\
    retrieve cid' k (c, elapse d w1) = (Ok v', (c, w2)).
Proof.
  intros (h & Hc & Hu) Hs Hparse Hq Hd. simpl in Hc, Hu.
  destruct (quiet_split 1 _ Hq) as [Hq1 Hq2].
  assert (Hne : s <> EmptyString) by (intros ->; discriminate Hparse).
  rewrite (store_accepted cid k v s t c w h) by (assumption || lia).
  eexists _, _, _. split; [reflexivity |].
  rewrite (retrieve_quiet cid' k c _ h Hc); try assumption.
  - unfold live_value. simpl. rewrite lookup_insert_eq. simpl.
    destruct (Z.ltb_spec (clock w + t) (clock w + d)) as [Hlt|_]; [lia |].
    unfold deserialized, truthy, to_string.
    destruct (String.eqb_spec s EmptyString) as [->|_]; [congruence |].
    simpl. rewrite Hparse. reflexivity.
  - rewrite (usable_clients h (set_status h Ready w)) by reflexivity.
    now apply (usable_set_status_ready h h w w).
Qed.

Lemma store_retrieve_through_json_sample :
  exists reply w1 w2,
    store "123" "key1"
      (JsObject [("a", JsArray [JsUndefined; JsNumber 1]); ("b", JsUndefined)]) 1000
      (fst sample_open, snd sample_open) = (Ok reply, (fst sample_open, w1)) /\
    retrieve "123" "key1" (fst sample_open, elapse 10 w1)
      = (Ok (JsObject [("a", JsArray [JsNull; JsNumber 1])]), (fst sample_open, w2)).
Proof.
  apply (store_retrieve_through_json "123" "123" "key1"
           (JsObject [("a", JsArray [JsUndefined; JsNumber 1]); ("b", JsUndefined)])
           (JsObject [("a", JsArray [JsNull; JsNumber 1])])
           (String "{" (String JSON.dquote (String "a" (String JSON.dquote ":[null,1]}"))))
           1000 10 (fst sample_open) (snd sample_open)).
  - exists 0%nat. split; reflexivity.
  - reflexivity.
  - reflexivity.
  - reflexivity.
  - lia.
Defined.

(** ** The retry strategy *)

(** X19. A delay is only ever answered while the connection was not
    refused, the retry time is within the timeout and the attempt within
    the retries; from the first attempt on it is at least 100 ms and at
    most 3000 ms, and a later attempt never gets a shorter one. *)
Theorem retry_delay_bounds
    (self : RedisCache) (options options' : RetryOptions) (n n' : Z) :
  retryStrategy self options = ANumber n ->
  retryStrategy self options' = ANumber n' ->
  1 <= attempt options <= attempt options' ->
  100 <= n <= n' /\ n' <= 3000 /\
  attempt options' <= _retries self /\
  total_retry_time options <= _timeout self /\
  ~ connection_refused options.
Proof.
  unfold retryStrategy. intros H H' Ha.
  destruct (match error options with
            | Some e => String.eqb (code e) "ECONNREFUSED"
            | None => false
            end) eqn:Hr; [discriminate |].
  destruct (match error options' with
            | Some e => String.eqb (code e) "ECONNREFUSED"
            | None => false
            end); [discriminate |].
  destruct (Z.gtb_spec (total_retry_time options) (_timeout self)); [discriminate |].
  destruct (Z.gtb_spec (total_retry_time options') (_timeout self)); [discriminate |].
  destruct (Z.gtb_spec (attempt options) (_retries self)); [discriminate |].
  destruct (Z.gtb_spec (attempt options') (_retries self)); [discriminate |].
  injection H as <-. injection H' as <-.
  repeat split; try lia.
  intros Hyes. apply connection_refused_reflect in Hyes. congruence.
Qed.

Lemma retry_delay_bounds_sample :
  100 <= 100 <= 300 /\ 300 <= 3000 /\
  attempt {| error := None; total_retry_time := 700; attempt := 3 |} <= _retries new_RedisCache /\
  total_retry_time {| error := None; total_retry_time := 0; attempt := 1 |}
    <= _timeout new_RedisCache /\
  ~ connection_refused {| error := None; total_retry_time := 0; attempt := 1 |}.
Proof.
  apply (retry_delay_bounds new_RedisCache
           {| error := None; total_retry_time := 0; attempt := 1 |}
           {| error := None; total_retry_time := 700; attempt := 3 |} 100 300).
  - reflexivity.
  - reflexivity.
  - simpl. lia.
Defined.
